(** * Sinc-based parameterized filterbank ([asteroid/filterbanks/param_sinc.py])

    A shallow embedding of the class [SincParamFB] and of the numpy and
    torch primitives it calls, followed by the properties of the
    generated filter bank.

    Numbers.  Python integers are [Z] ([//] is [Z.div], [%] is
    [Z.modulo]: both round towards minus infinity, like Python's).
    Floating-point values are idealised: a [float] is a real number or
    one of the three IEEE special values, operations on finite values are
    the exact real operations (no rounding, no overflow, no signed zero),
    and the special values follow IEEE 754.  A zero divisor is taken to
    be [+0]: the only divisors of the program that can vanish are
    [sample_rate] (a Python number, converted to [+0]) and [2 * band]
    where [band = high - low] is the difference of two equal numbers,
    which is [+0] in the default rounding mode.

    The tensors of the program are in single precision.  The exact
    model leaves the rounding of their arithmetic out; the properties
    proved in it are properties of the formulas the program evaluates.
    Where rounding changes the outcome, the absorption of a small
    [min_band_hz] in the effective band and the stored value of the
    window, the computation is modelled a second time with the rounding
    [round32] of every operation. *)

From Stdlib Require Import Reals Lra ZArith String DecimalString.
From stdpp Require Import base list strings.

Open Scope R_scope.

(** ** Idealised floating-point numbers *)

Inductive float : Type :=
  | Fin (x : R)
  | PInf
  | NInf
  | NaN.

(** Sign of a real number: [Lt] negative, [Eq] zero, [Gt] positive. *)
Definition Rsgn (x : R) : comparison :=
  match total_order_T x 0 with
  | inleft (left _) => Lt
  | inleft (right _) => Eq
  | inright _ => Gt
  end.

(** The infinity of the given sign; a zero sign is the invalid operation. *)
Definition signed_inf (c : comparison) : float :=
  match c with Lt => NInf | Eq => NaN | Gt => PInf end.

Definition fneg (a : float) : float :=
  match a with
  | Fin x => Fin (- x)
  | PInf => NInf
  | NInf => PInf
  | NaN => NaN
  end.

Definition fabs (a : float) : float :=
  match a with
  | Fin x => Fin (Rabs x)
  | PInf | NInf => PInf
  | NaN => NaN
  end.

Definition fadd (a b : float) : float :=
  match a, b with
  | NaN, _ | _, NaN => NaN
  | Fin x, Fin y => Fin (x + y)
  | PInf, NInf | NInf, PInf => NaN
  | PInf, _ | _, PInf => PInf
  | NInf, _ | _, NInf => NInf
  end.

Definition fsub (a b : float) : float := fadd a (fneg b).

Definition fmul (a b : float) : float :=
  match a, b with
  | NaN, _ | _, NaN => NaN
  | Fin x, Fin y => Fin (x * y)
  | Fin x, PInf | PInf, Fin x => signed_inf (Rsgn x)
  | Fin x, NInf | NInf, Fin x => signed_inf (CompOpp (Rsgn x))
  | PInf, PInf | NInf, NInf => PInf
  | PInf, NInf | NInf, PInf => NInf
  end.

Definition fdiv (a b : float) : float :=
  match a, b with
  | NaN, _ | _, NaN => NaN
  | Fin x, Fin y =>
      if Req_dec_T y 0 then signed_inf (Rsgn x) else Fin (x / y)
  | Fin _, (PInf | NInf) => Fin 0
  | PInf, Fin y => if Rlt_dec y 0 then NInf else PInf
  | NInf, Fin y => if Rlt_dec y 0 then PInf else NInf
  | (PInf | NInf), (PInf | NInf) => NaN
  end.

Definition fsin (a : float) : float :=
  match a with Fin x => Fin (sin x) | _ => NaN end.

Definition fcos (a : float) : float :=
  match a with Fin x => Fin (cos x) | _ => NaN end.

(** [10 ** a] *)
Definition fpow10 (a : float) : float :=
  match a with
  | Fin x => Fin (Rpower 10 x)
  | PInf => PInf
  | NInf => Fin 0
  | NaN => NaN
  end.

(** ** Single precision

    The tensors of the program hold IEEE 754 single-precision numbers:
    24 significant bits, exponents down to [-149] with gradual underflow,
    rounding to the nearest value and to an even significand on a tie.
    [round32] is that rounding on the real numbers; overflow is left out
    (the exponent range is unbounded above).  It is used where a property
    of the program depends on rounding. *)

(** The exponent of the binade of [x]: [2 ^ mag x <= |x| < 2 ^ (mag x + 1)]
    for a nonzero [x]. *)
Definition mag (x : R) : Z := Zfloor (ln (Rabs x) / ln 2).

(** The exponent of the unit in the last place of [x]. *)
Definition cexp (x : R) : Z := Z.max (mag x - 23) (-149).

(** The nearest integer, the even one on a tie. *)
Definition rne (y : R) : Z :=
  let f := Zfloor y in
  if Rlt_dec (y - IZR f) (1 / 2) then f
  else if Rlt_dec (1 / 2) (y - IZR f) then (f + 1)%Z
  else if Z.even f then f else (f + 1)%Z.

Definition round32 (x : R) : R :=
  IZR (rne (x * powerRZ 2 (- cexp x))) * powerRZ 2 (cexp x).

(** The result of an operation, or a Python number that meets a tensor,
    stored in single precision. *)
Definition fround (a : float) : float :=
  match a with
  | Fin x => Fin (round32 x)
  | PInf | NInf | NaN => a
  end.

(** The single-precision numbers. *)
Definition representable (x : R) : Prop :=
  ∃ m e : Z, x = IZR m * powerRZ 2 e ∧ (Z.abs m < 2 ^ 24)%Z ∧ (-149 ≤ e)%Z.

(** ** Exceptions *)

Inductive exn : Type :=
  | ValueError (msg : string)
  | RuntimeError.

Inductive result (A : Type) : Type :=
  | Ok (a : A)
  | Error (e : exn).
Arguments Ok {A} a.
Arguments Error {A} e.

Definition bind {A B : Type} (r : result A) (k : A → result B) : result B :=
  match r with
  | Ok a => k a
  | Error e => Error e
  end.

Notation "'let*' x ':=' r 'in' k" := (bind r (λ x, k))
  (at level 10, x pattern, r at level 100, k at level 200).

(** [str(z)] for a Python integer. *)
Definition str (z : Z) : string := NilZero.string_of_int (Z.to_int z).

(** [l[:stop]] *)
Definition slice_to {A : Type} (stop : Z) (l : list A) : list A :=
  if (stop <? 0)%Z then take (Z.to_nat (Z.of_nat (length l) + stop)) l
  else take (Z.to_nat stop) l.

(** ** The numpy functions the class calls *)

Module np.

(** [np.log10]: minus infinity at zero, invalid below. *)
Definition log10 (a : float) : float :=
  match a with
  | Fin x =>
      match Rsgn x with
      | Gt => Fin (ln x / ln 10)
      | Eq => NInf
      | Lt => NaN
      end
  | PInf => PInf
  | NInf | NaN => NaN
  end.

(** [np.hamming(M)]: the window
    [w(n) = 0.54 - 0.46 cos(2 pi n / (M - 1))], [0 <= n <= M - 1];
    empty for [M < 1] and [[1.]] for [M = 1]. *)
Definition hamming (M : Z) : list float :=
  if (M <? 1)%Z then []
  else if (M =? 1)%Z then [Fin 1]
  else (λ n, Fin (0.54 - 0.46 * cos (2 * PI * IZR n / IZR (M - 1))))
         <$> seqZ 0 M.

(** [np.linspace(start, stop, num)]: [num] evenly spaced samples over
    [[start, stop]], the end point included: sample [i] is
    [i * step + start] with [step = (stop - start) / (num - 1)], and the
    last one is [stop] itself.  (numpy's separate path for a vanishing
    step computes [i / (num - 1) * (stop - start)], the same number in
    exact arithmetic.) *)
Definition linspace (start stop : float) (num : Z) : result (list float) :=
  if (num <? 0)%Z then
    Error (ValueError ("Number of samples, " ++ str num
                       ++ ", must be non-negative."))
  else
    let div := (num - 1)%Z in
    let delta := fsub stop start in
    let y := (λ i, Fin (IZR i)) <$> seqZ 0 num in
    let y :=
      if (1 <? num)%Z then
        let step := fdiv delta (Fin (IZR div)) in
        (λ yi, fmul yi step) <$> y
      else (λ yi, fmul yi delta) <$> y in
    let y := (λ yi, fadd yi start) <$> y in
    Ok (if (1 <? num)%Z then take (length y - 1) y ++ [stop] else y).

(** [np.diff(a)]: [a[1:] - a[:-1]]. *)
Definition diff (a : list float) : list float :=
  zip_with fsub (drop 1 a) (take (length a - 1) a).

End np.

(** ** The torch functions the class calls

    A vector is a list, a matrix a list of rows, and a tensor with three
    axes a list of matrices.  The parameters [low_hz_] and [band_hz_] have
    shape [(F, 1)]: they are kept as the list of their [F] entries.  The
    elementwise operations below stand for torch's on operands whose
    shapes match, as they do in every instance the constructor builds
    ([well_shaped] below); torch refuses other shapes. *)

Module torch.

(** The whole numbers [start, start + 1, ...] below [stop]. *)
Definition whole_numbers (start stop : Z) : list float :=
  (λ t, Fin (IZR t)) <$> seqZ start (stop - start).

(** [torch.arange(start, end)] on whole numbers, with the step 1: an
    upper bound below the lower bound is refused. *)
Definition arange (start stop : Z) : result (list float) :=
  if (stop <? start)%Z then Error RuntimeError
  else Ok (whole_numbers start stop).

(** [torch.clamp(x, min, max)]: [min(max(x, min), max)], so [max] wins
    when [min > max]; a NaN stays a NaN. *)
Definition clamp (a : float) (min max : R) : float :=
  match a with
  | Fin x => Fin (Rmin (Rmax x min) max)
  | PInf => Fin max
  | NInf => Fin (Rmin min max)
  | NaN => NaN
  end.

(** [torch.matmul] of an [(F, 1)] column with a [(1, C)] row. *)
Definition matmul (col row : list float) : list (list float) :=
  (λ c, fmul c <$> row) <$> col.

Definition sin (t : list (list float)) : list (list float) :=
  (λ r : list float, fsin <$> r) <$> t.

Definition cos (t : list (list float)) : list (list float) :=
  (λ r : list float, fcos <$> r) <$> t.

Definition neg (t : list (list float)) : list (list float) :=
  (λ r : list float, fneg <$> r) <$> t.

(** Elementwise difference of two matrices of one shape. *)
Definition sub (a b : list (list float)) : list (list float) :=
  zip_with (zip_with fsub) a b.

(** [a / r] and [a * r] for a row vector [r], broadcast over the rows
    of [a]. *)
Definition div_row (a : list (list float)) (r : list float)
  : list (list float) :=
  (λ x, zip_with fdiv x r) <$> a.

Definition mul_row (a : list (list float)) (r : list float)
  : list (list float) :=
  (λ x, zip_with fmul x r) <$> a.

(** [a / c] for a column [c] of shape [(F, 1)], broadcast over the
    columns of [a]. *)
Definition div_col (a : list (list float)) (c : list float)
  : list (list float) :=
  zip_with (λ x ci, (λ xi, fdiv xi ci) <$> x) a c.

(** [torch.flip(t, dims=[1])] *)
Definition flip (t : list (list float)) : list (list float) :=
  reverse <$> t.

(** [torch.cat([a, b, c], dim=1)] *)
Definition cat1 (a b c : list (list float)) : list (list float) :=
  zip_with app (zip_with app a b) c.

(** [torch.cat([a, b], dim=0)] *)
Definition cat0 {A : Type} (a b : list A) : list A := a ++ b.

(** Shape inference of [view]: at most one dimension is [-1] and is
    inferred from the number of elements; the others are non-negative
    and their product has to match. *)
Definition infer_size (shape : list Z) (numel : Z) : result (list Z) :=
  if bool_decide (Exists (λ d, d < -1)%Z shape) then Error RuntimeError
  else if (1 <? Z.of_nat (length (filter (λ d, d = (-1)%Z) shape)))%Z
  then Error RuntimeError
  else
    let infer := bool_decide (Exists (λ d, d = (-1)%Z) shape) in
    let newsize :=
      foldr Z.mul 1%Z (filter (λ d, 0 ≤ d)%Z shape) in
    if (numel =? newsize)%Z
       || (infer && (0 <? newsize)%Z && (numel mod newsize =? 0)%Z)
    then
      if infer then
        if (newsize =? 0)%Z then Error RuntimeError
        else Ok ((λ d, if (d =? -1)%Z then (numel / newsize)%Z else d)
                   <$> shape)
      else Ok shape
    else Error RuntimeError.

(** [t.view(d0, d1, d2)] of a matrix: the elements in row-major order,
    regrouped. *)
Definition view3 (t : list (list float)) (d0 d1 d2 : Z)
  : result (list (list (list float))) :=
  let flat := concat t in
  let* shape := infer_size [d0; d1; d2] (Z.of_nat (length flat)) in
  match shape with
  | [s0; s1; s2] =>
      Ok (reshape (replicate (Z.to_nat s1) (Z.to_nat s2))
            <$> reshape (replicate (Z.to_nat s0) (Z.to_nat (s1 * s2))) flat)
  | _ => Error RuntimeError
  end.

End torch.

(** ** The class [SincParamFB] *)

(** Modelled from the spec: the base class [EncoderDecoder] of module
    [enc_dec], which is not part of the sources at hand.  It is the plain
    configuration holder of the stride and of the encoder / decoder tag;
    its constructor validates nothing. *)
Record EncoderDecoder : Type := {
  ed_stride : Z;
  enc_or_dec : string
}.

Definition EncoderDecoder_init (stride : Z) (enc_or_dec : string)
  : EncoderDecoder :=
  {| ed_stride := stride; enc_or_dec := enc_or_dec |}.

Record SincParamFB : Type := {
  base : EncoderDecoder;
  n_filters : Z;
  kernel_size : Z;
  stride : Z;
  sample_rate : R;
  min_low_hz : R;
  min_band_hz : R;
  cutoff : Z;
  low_hz_ : list float;     (* learnable, shape (n_filters // 2, 1) *)
  band_hz_ : list float;    (* learnable, shape (n_filters // 2, 1) *)
  window_ : list float;     (* buffer, shape (cutoff,) *)
  n_ : list float           (* buffer, shape (1, cutoff) *)
}.

Definition to_mel (hz : float) : float :=
  fmul (Fin 2595) (np.log10 (fadd (Fin 1) (fdiv hz (Fin 700)))).

Definition to_hz (mel : float) : float :=
  fmul (Fin 700) (fsub (fpow10 (fdiv mel (Fin 2595))) (Fin 1)).

(** The points [hz] of [_initialize_filters]. *)
Definition mel_points (n_filters : Z) (sample_rate min_low_hz min_band_hz : R)
  : result (list float) :=
  let low_hz := 30 in
  let high_hz := sample_rate / 2 - (min_low_hz + min_band_hz) in
  let* mel := np.linspace (to_mel (Fin low_hz)) (to_mel (Fin high_hz))
                 (n_filters / 2 + 1) in
  Ok (to_hz <$> mel).

(** Filter initialization along the mel scale: the initial values of
    [low_hz_] and [band_hz_]. *)
Definition _initialize_filters
    (n_filters : Z) (sample_rate min_low_hz min_band_hz : R)
  : result (list float * list float) :=
  let* hz := mel_points n_filters sample_rate min_low_hz min_band_hz in
  Ok (take (length hz - 1) hz, np.diff hz).

(** The constructor: what it prints, and the instance or the exception.
    The reshapes [view(-1, 1)] and [view(1, -1)] of a vector cannot fail
    and are not visible on lists.  The buffers are the exact values of
    the formulas: [torch.Tensor(window_)] converts the window to single
    precision and the arithmetic of [n_] is rounded, which this
    definition leaves out; [window32] below is the stored window. *)
Definition __init__ (n_filters kernel_size stride : Z) (enc_or_dec : string)
    (sample_rate min_low_hz min_band_hz : R)
  : list string * result SincParamFB :=
  let base := EncoderDecoder_init stride enc_or_dec in
  let '(kernel_size, out) :=
    if (kernel_size mod 2 =? 0)%Z then
      ((kernel_size + 1)%Z,
       [("Received kernel_size=" ++ str kernel_size ++ ", force "
         ++ "kernel_size=" ++ str (kernel_size + 1)
         ++ " so filters are odd")%string])
    else (kernel_size, []) in
  let cutoff := (kernel_size / 2)%Z in
  (out,
   let* (low_hz_, band_hz_) :=
     _initialize_filters n_filters sample_rate min_low_hz min_band_hz in
   let window_ := slice_to cutoff (np.hamming kernel_size) in
   let* times := torch.arange (- cutoff) 0 in
   let n_ := (λ t, fmul (Fin (2 * PI)) (fdiv t (Fin sample_rate)))
               <$> times in
   Ok {| base := base; n_filters := n_filters; kernel_size := kernel_size;
         stride := stride; sample_rate := sample_rate;
         min_low_hz := min_low_hz; min_band_hz := min_band_hz;
         cutoff := cutoff; low_hz_ := low_hz_; band_hz_ := band_hz_;
         window_ := window_; n_ := n_ |}).

(** An optimizer step: the two learnable tensors get new values, of the
    same shape; nothing else changes. *)
Definition update (self : SincParamFB) (low_hz band_hz : list float)
  : SincParamFB :=
  {| base := base self; n_filters := n_filters self;
     kernel_size := kernel_size self; stride := stride self;
     sample_rate := sample_rate self; min_low_hz := min_low_hz self;
     min_band_hz := min_band_hz self; cutoff := cutoff self;
     low_hz_ := low_hz; band_hz_ := band_hz;
     window_ := window_ self; n_ := n_ self |}.

(** The effective frequencies [low] and [high] of [filters], in exact
    arithmetic: the sums are not rounded.  In the program they are
    rounded to single precision, and a sum can round back to one of its
    terms; [effective_low32] and [effective_high32] below are the rounded
    computation. *)
Definition effective_low (self : SincParamFB) : list float :=
  (λ l, fadd (Fin (min_low_hz self)) (fabs l)) <$> low_hz_ self.

Definition effective_high (self : SincParamFB) : list float :=
  zip_with
    (λ low b,
       torch.clamp (fadd (fadd low (Fin (min_band_hz self))) (fabs b))
         (min_low_hz self) (sample_rate self / 2))
    (effective_low self) (band_hz_ self).

(** The three blocks [bp_left], [bp_center] and [bp_right] of
    [make_filters], selected by the tag. *)
Definition band_pass_blocks (self : SincParamFB) (low high : list float)
    (type : string)
  : result (list (list float) * list (list float) * list (list float)) :=
  let band := zip_with fsub high low in
  let f_times_t_low := torch.matmul low (n_ self) in
  let f_times_t_high := torch.matmul high (n_ self) in
  if String.eqb type "cos" then
    let bp_left :=
      torch.mul_row
        (torch.div_row
           (torch.sub (torch.sin f_times_t_high) (torch.sin f_times_t_low))
           ((λ n, fdiv n (Fin 2)) <$> n_ self))
        (window_ self) in
    let bp_center := (λ b, [fmul (Fin 2) b]) <$> band in
    let bp_right := torch.flip bp_left in
    Ok (bp_left, bp_center, bp_right)
  else if String.eqb type "sin" then
    let bp_left :=
      torch.mul_row
        (torch.div_row
           (torch.sub (torch.cos f_times_t_low) (torch.cos f_times_t_high))
           ((λ n, fdiv n (Fin 2)) <$> n_ self))
        (window_ self) in
    let bp_center := (λ b, [Fin 0]) <$> band in
    let bp_right := torch.neg (torch.flip bp_left) in
    Ok (bp_left, bp_center, bp_right)
  else Error (ValueError ("Invalid filter type " ++ type)).

Definition make_filters (self : SincParamFB) (low high : list float)
    (type : string) : result (list (list (list float))) :=
  let band := zip_with fsub high low in
  let* (bp_left, bp_center, bp_right) :=
    band_pass_blocks self low high type in
  let band_pass := torch.cat1 bp_left bp_center bp_right in
  let band_pass :=
    torch.div_col band_pass ((λ b, fmul (Fin 2) b) <$> band) in
  torch.view3 band_pass (n_filters self / 2) 1 (kernel_size self).

(** The property [filters]: the bank computed from the parameters. *)
Definition filters (self : SincParamFB) : result (list (list (list float))) :=
  let low := effective_low self in
  let high := effective_high self in
  let* cos_filters := make_filters self low high "cos" in
  let* sin_filters := make_filters self low high "sin" in
  Ok (torch.cat0 cos_filters sin_filters).

(** ** The effective band in single precision

    The tensor arithmetic of [filters] and of the band and the center
    column of [make_filters], with the rounding of every operation: the
    Python numbers [min_low_hz], [min_band_hz] and [sample_rate / 2] are
    converted to single precision when they meet a tensor, and every sum,
    difference, product and quotient is rounded.  [torch.clamp] selects
    one of its arguments and rounds nothing. *)

(** [low = self.min_low_hz + torch.abs(self.low_hz_)] *)
Definition effective_low32 (self : SincParamFB) : list float :=
  (λ l, fround (fadd (fround (Fin (min_low_hz self))) (fabs l)))
    <$> low_hz_ self.

(** [low + self.min_band_hz + torch.abs(self.band_hz_)], the argument of
    the clamp. *)
Definition band_sum32 (self : SincParamFB) : list float :=
  zip_with
    (λ low b,
       fround (fadd (fround (fadd low (fround (Fin (min_band_hz self)))))
                 (fabs b)))
    (effective_low32 self) (band_hz_ self).

(** [high = torch.clamp(..., self.min_low_hz, self.sample_rate / 2)] *)
Definition effective_high32 (self : SincParamFB) : list float :=
  (λ s, torch.clamp s (round32 (min_low_hz self))
          (round32 (sample_rate self / 2)))
    <$> band_sum32 self.

(** [band = (high - low)[:, 0]] *)
Definition band32 (self : SincParamFB) : list float :=
  zip_with (λ high low, fround (fsub high low))
    (effective_high32 self) (effective_low32 self).

(** [2 * band[:, None]], the divisor of the last line but one. *)
Definition divisor32 (self : SincParamFB) : list float :=
  (λ b, fround (fmul (Fin 2) b)) <$> band32 self.

(** The center column of [band_pass] after the division: [bp_center] is
    [2 * band] for the tag ['cos'] and zero for the tag ['sin']. *)
Definition center_cos32 (self : SincParamFB) : list float :=
  zip_with (λ b d, fround (fdiv (fround (fmul (Fin 2) b)) d))
    (band32 self) (divisor32 self).

Definition center_sin32 (self : SincParamFB) : list float :=
  (λ d, fround (fdiv (Fin 0) d)) <$> divisor32 self.

(** [torch.Tensor(window_)]: the half window that numpy computed,
    converted to single precision when it is stored as a buffer. *)
Definition window32 (self : SincParamFB) : list float :=
  fround <$> window_ self.

(** ** One kernel at a time

    The rows of the matrices of [make_filters], written for one filter
    with effective frequencies [lo] and [hi]: the left block, and the
    whole normalised kernel.  [make_filters_cos] and [make_filters_sin]
    below show that the bank consists of exactly these rows. *)

Definition half_n (self : SincParamFB) : list float :=
  (λ n, fdiv n (Fin 2)) <$> n_ self.

Definition left_cos (self : SincParamFB) (lo hi : float) : list float :=
  zip_with fmul
    (zip_with fdiv
       (zip_with fsub (fsin <$> (fmul hi <$> n_ self))
          (fsin <$> (fmul lo <$> n_ self)))
       (half_n self))
    (window_ self).

Definition left_sin (self : SincParamFB) (lo hi : float) : list float :=
  zip_with fmul
    (zip_with fdiv
       (zip_with fsub (fcos <$> (fmul lo <$> n_ self))
          (fcos <$> (fmul hi <$> n_ self)))
       (half_n self))
    (window_ self).

Definition kernel_cos (self : SincParamFB) (lo hi : float) : list float :=
  let band := fsub hi lo in
  let left := left_cos self lo hi in
  (λ x, fdiv x (fmul (Fin 2) band))
    <$> ((left ++ [fmul (Fin 2) band]) ++ reverse left).

Definition kernel_sin (self : SincParamFB) (lo hi : float) : list float :=
  let band := fsub hi lo in
  let left := left_sin self lo hi in
  (λ x, fdiv x (fmul (Fin 2) band))
    <$> ((left ++ [Fin 0]) ++ (fneg <$> reverse left)).

(** ** The initial frequencies as the specification words them

    Point [i] of [N + 1] linearly spaced points between the mel values of
    30 Hz and of [sample_rate / 2 - (min_low_hz + min_band_hz)], taken back
    to Hz, where [N = n_filters / 2]. *)

Definition spec_mel_point (n_filters : Z)
    (sample_rate min_low_hz min_band_hz : R) (i : nat) : float :=
  let a := to_mel (Fin 30) in
  let b := to_mel (Fin (sample_rate / 2 - (min_low_hz + min_band_hz))) in
  fadd a (fmul (Fin (IZR (Z.of_nat i)))
            (fdiv (fsub b a) (Fin (IZR (n_filters / 2))))).

Definition spec_hz (n_filters : Z) (sample_rate min_low_hz min_band_hz : R)
    (i : nat) : float :=
  to_hz (spec_mel_point n_filters sample_rate min_low_hz min_band_hz i).

(** An instance is well shaped when the two buffers have one length [C],
    the kernel size is [2 C + 1], and both parameter tensors have
    [n_filters // 2] entries. *)
Record well_shaped (self : SincParamFB) : Prop := {
  ws_window : length (window_ self) = length (n_ self);
  ws_kernel : kernel_size self = (2 * Z.of_nat (length (n_ self)) + 1)%Z;
  ws_half : (0 ≤ n_filters self / 2)%Z;
  ws_low : length (low_hz_ self) = Z.to_nat (n_filters self / 2);
  ws_band : length (band_hz_ self) = Z.to_nat (n_filters self / 2)
}.

(** A tensor with three axes has shape [(d0, d1, d2)]. *)
Definition shape3 (t : list (list (list float))) (d0 d1 d2 : Z) : Prop :=
  Z.of_nat (length t) = d0
  ∧ Forall (λ m, Z.of_nat (length m) = d1
                 ∧ Forall (λ r : list float, Z.of_nat (length r) = d2) m) t.

(** ** The kernels as the specification words them

    Real-valued formulas for a filter with raw parameters [l] and [b]:
    the effective frequencies, the half time index [n_j], the Hamming
    sample [w_j], and the kernels built from a left half, a center sample
    and a right half, all divided by [2 * band]. *)

Definition spec_low (min_low_hz l : R) : R := min_low_hz + Rabs l.

Definition spec_high (sample_rate min_low_hz min_band_hz l b : R) : R :=
  Rmin (Rmax (spec_low min_low_hz l + min_band_hz + Rabs b) min_low_hz)
    (sample_rate / 2).

Definition spec_n (sample_rate : R) (kernel_size : Z) (j : nat) : R :=
  2 * PI * IZR (Z.of_nat j - kernel_size / 2) / sample_rate.

Definition spec_w (kernel_size : Z) (j : nat) : R :=
  0.54 - 0.46 * cos (2 * PI * IZR (Z.of_nat j) / IZR (kernel_size - 1)).

Definition spec_left_cos (sample_rate : R) (kernel_size : Z) (low high : R)
  : list R :=
  (λ j, let n := spec_n sample_rate kernel_size j in
        (sin (high * n) - sin (low * n)) / (n / 2) * spec_w kernel_size j)
    <$> seq 0 (Z.to_nat (kernel_size / 2)).

Definition spec_left_sin (sample_rate : R) (kernel_size : Z) (low high : R)
  : list R :=
  (λ j, let n := spec_n sample_rate kernel_size j in
        (cos (low * n) - cos (high * n)) / (n / 2) * spec_w kernel_size j)
    <$> seq 0 (Z.to_nat (kernel_size / 2)).

Definition spec_kernel_cos (sample_rate : R) (kernel_size : Z) (low high : R)
  : list R :=
  let band := high - low in
  let left := spec_left_cos sample_rate kernel_size low high in
  (λ x, x / (2 * band)) <$> (left ++ [2 * band] ++ reverse left).

Definition spec_kernel_sin (sample_rate : R) (kernel_size : Z) (low high : R)
  : list R :=
  let band := high - low in
  let left := spec_left_sin sample_rate kernel_size low high in
  (λ x, x / (2 * band)) <$> (left ++ [0] ++ (Ropp <$> reverse left)).

(** ** The mel scale and the initial frequencies in real numbers

    The two conversions on finite values inside their domain, and point
    [i] of the initial frequencies [hz] of [_initialize_filters]. *)

Definition mel_of (f : R) : R := 2595 * (ln (1 + f / 700) / ln 10).

Definition hz_of (m : R) : R := 700 * (Rpower 10 (m / 2595) - 1).

Definition init_hz (n_filters : Z) (sample_rate min_low_hz min_band_hz : R)
    (i : nat) : R :=
  let a := mel_of 30 in
  let b := mel_of (sample_rate / 2 - (min_low_hz + min_band_hz)) in
  hz_of (a + IZR (Z.of_nat i) * ((b - a) / IZR (n_filters / 2))).

(** The sum of the samples of a kernel. *)
Definition Rsum (l : list R) : R := foldr Rplus 0 l.

(** A finite floating-point value. *)
Definition is_finite (a : float) : Prop :=
  match a with Fin _ => True | _ => False end.

(** * Properties *)

(** ** Arithmetic on finite values *)

Lemma Rsgn_pos (x : R) : 0 < x → Rsgn x = Gt.
Proof.
  intros Hx. unfold Rsgn.
  destruct (total_order_T x 0) as [[H | H] | H]; try reflexivity; lra.
Qed.

Lemma Rsgn_zero : Rsgn 0 = Eq.
Proof.
  unfold Rsgn.
  destruct (total_order_T 0 0) as [[H | H] | H]; try reflexivity; lra.
Qed.

Lemma fdiv_Fin (x y : R) : y ≠ 0 → fdiv (Fin x) (Fin y) = Fin (x / y).
Proof.
  intros Hy. simpl.
  destruct (Req_dec_T y 0) as [H | H]; [contradiction | reflexivity].
Qed.

Lemma log10_Fin (x : R) : 0 < x → np.log10 (Fin x) = Fin (ln x / ln 10).
Proof. intros Hx. simpl. rewrite Rsgn_pos by assumption. reflexivity. Qed.

Lemma ln_10_pos : 0 < ln 10.
Proof. rewrite <- ln_1. apply ln_increasing; lra. Qed.

Lemma to_mel_Fin (f : R) :
  -700 < f → to_mel (Fin f) = Fin (2595 * (ln (1 + f / 700) / ln 10)).
Proof.
  intros Hf. unfold to_mel.
  rewrite fdiv_Fin by lra. simpl fadd.
  rewrite log10_Fin by lra. reflexivity.
Qed.

Lemma to_hz_Fin (m : R) :
  to_hz (Fin m) = Fin (700 * (Rpower 10 (m / 2595) - 1)).
Proof.
  unfold to_hz. rewrite fdiv_Fin by lra. simpl.
  f_equal.
Qed.

(** ** The mel scale *)

(** C7: [to_hz] undoes [to_mel] on every positive frequency (indeed on
    every frequency above -700 Hz), and [to_mel] undoes [to_hz] on every
    finite mel value: with the constants 2595 and 700 used by both, the two
    conversions are inverse to each other in exact arithmetic. *)
Theorem mel_round_trip (f m : R) :
  0 < f →
  to_hz (to_mel (Fin f)) = Fin f ∧ to_mel (to_hz (Fin m)) = Fin m.
Proof.
  intros Hf. pose proof ln_10_pos as H10. split.
  - rewrite to_mel_Fin by lra. rewrite to_hz_Fin. f_equal.
    unfold Rpower.
    replace (2595 * (ln (1 + f / 700) / ln 10) / 2595 * ln 10)
      with (ln (1 + f / 700)) by (field; lra).
    rewrite exp_ln by lra. field.
  - rewrite to_hz_Fin.
    assert (Hp : 0 < Rpower 10 (m / 2595)) by (unfold Rpower; apply exp_pos).
    rewrite to_mel_Fin by lra. f_equal.
    replace (1 + 700 * (Rpower 10 (m / 2595) - 1) / 700)
      with (Rpower 10 (m / 2595)) by (field; lra).
    rewrite ln_Rpower. field. lra.
Qed.

Lemma mel_round_trip_witness :
  to_hz (to_mel (Fin 1000)) = Fin 1000 ∧ to_mel (to_hz (Fin 0)) = Fin 0.
Proof. apply (mel_round_trip 1000 0). lra. Defined.

(** ** Lists and shapes *)

Lemma reshape_rows {A : Type} (t : list (list A)) (k : nat) :
  Forall (λ r, length r = k) t →
  reshape (replicate (length t) k) (concat t) = t.
Proof.
  induction 1 as [| r t Hr Ht IH]; simpl; [reflexivity |].
  subst k. rewrite take_app_length, drop_app_length, IH. reflexivity.
Qed.

Lemma length_concat_rows {A : Type} (t : list (list A)) (k : nat) :
  Forall (λ r, length r = k) t → length (concat t) = (length t * k)%nat.
Proof.
  induction 1 as [| r t Hr Ht IH]; simpl; [reflexivity |].
  rewrite length_app, IH, Hr. reflexivity.
Qed.

Lemma reshape_singleton {A : Type} (r : list A) (k : nat) :
  length r = k → reshape (replicate 1 k) r = [r].
Proof. intros H. simpl. rewrite take_ge by lia. reflexivity. Qed.

Lemma infer_size_exact (F K : Z) :
  (0 ≤ F)%Z → (0 ≤ K)%Z →
  torch.infer_size [F; 1%Z; K] (F * K) = Ok [F; 1%Z; K].
Proof.
  intros HF HK. unfold torch.infer_size.
  rewrite bool_decide_eq_false_2
    by (rewrite !Exists_cons, Exists_nil; lia).
  rewrite !filter_cons, !filter_nil.
  repeat case_decide; try lia. simpl length. simpl foldr.
  replace (F * (1 * (K * 1)))%Z with (F * K)%Z by lia.
  rewrite Z.eqb_refl. simpl.
  rewrite bool_decide_eq_false_2
    by (rewrite !Exists_cons, Exists_nil; lia).
  reflexivity.
Qed.

Lemma view3_rows (t : list (list float)) (F K : Z) :
  (0 ≤ K)%Z → length t = Z.to_nat F → (0 ≤ F)%Z →
  Forall (λ r, length r = Z.to_nat K) t →
  torch.view3 t F 1 K = Ok ((λ row, [row]) <$> t).
Proof.
  intros HK HF HF0 Hrows. unfold torch.view3.
  rewrite (length_concat_rows t (Z.to_nat K)) by assumption.
  replace (Z.of_nat (length t * Z.to_nat K)) with (F * K)%Z by lia.
  rewrite infer_size_exact by assumption. simpl.
  f_equal. rewrite <- HF.
  replace (Z.to_nat (1 * K)) with (Z.to_nat K) by lia.
  rewrite reshape_rows by assumption.
  apply list_fmap_ext. intros i r Hr.
  apply reshape_singleton.
  exact (proj1 (Forall_lookup _ _) Hrows i r Hr).
Qed.

(** ** The bank, kernel by kernel *)

Lemma length_left_cos (self : SincParamFB) (lo hi : float) :
  length (window_ self) = length (n_ self) →
  length (left_cos self lo hi) = length (n_ self).
Proof.
  intros Hw. unfold left_cos, half_n.
  rewrite !length_zip_with, !length_fmap, Hw. lia.
Qed.

Lemma length_left_sin (self : SincParamFB) (lo hi : float) :
  length (window_ self) = length (n_ self) →
  length (left_sin self lo hi) = length (n_ self).
Proof.
  intros Hw. unfold left_sin, half_n.
  rewrite !length_zip_with, !length_fmap, Hw. lia.
Qed.

Lemma length_kernel_cos (self : SincParamFB) (lo hi : float) :
  length (window_ self) = length (n_ self) →
  length (kernel_cos self lo hi) = (2 * length (n_ self) + 1)%nat.
Proof.
  intros Hw. unfold kernel_cos.
  rewrite length_fmap, !length_app, length_reverse, length_left_cos by done.
  simpl. lia.
Qed.

Lemma length_kernel_sin (self : SincParamFB) (lo hi : float) :
  length (window_ self) = length (n_ self) →
  length (kernel_sin self lo hi) = (2 * length (n_ self) + 1)%nat.
Proof.
  intros Hw. unfold kernel_sin.
  rewrite length_fmap, !length_app, length_fmap, length_reverse,
    length_left_sin by done.
  simpl. lia.
Qed.

(** The matrix [band_pass] of [make_filters], before the final [view]. *)
Lemma band_pass_cos (self : SincParamFB) (low high : list float) :
  torch.div_col
    (torch.cat1
       (torch.mul_row
          (torch.div_row
             (torch.sub (torch.sin (torch.matmul high (n_ self)))
                (torch.sin (torch.matmul low (n_ self))))
             ((λ n, fdiv n (Fin 2)) <$> n_ self))
          (window_ self))
       ((λ b, [fmul (Fin 2) b]) <$> zip_with fsub high low)
       (torch.flip
          (torch.mul_row
             (torch.div_row
                (torch.sub (torch.sin (torch.matmul high (n_ self)))
                   (torch.sin (torch.matmul low (n_ self))))
                ((λ n, fdiv n (Fin 2)) <$> n_ self))
             (window_ self))))
    ((λ b, fmul (Fin 2) b) <$> zip_with fsub high low)
  = zip_with (kernel_cos self) low high.
Proof.
  revert high. induction low as [| lo low IH]; intros [| hi high];
    try reflexivity.
  specialize (IH high).
  unfold torch.div_col, torch.cat1, torch.flip, torch.mul_row,
    torch.div_row, torch.sub, torch.sin, torch.matmul in *.
  simpl. f_equal. exact IH.
Qed.

Lemma band_pass_sin (self : SincParamFB) (low high : list float) :
  torch.div_col
    (torch.cat1
       (torch.mul_row
          (torch.div_row
             (torch.sub (torch.cos (torch.matmul low (n_ self)))
                (torch.cos (torch.matmul high (n_ self))))
             ((λ n, fdiv n (Fin 2)) <$> n_ self))
          (window_ self))
       ((λ b, [Fin 0]) <$> zip_with fsub high low)
       (torch.neg (torch.flip
          (torch.mul_row
             (torch.div_row
                (torch.sub (torch.cos (torch.matmul low (n_ self)))
                   (torch.cos (torch.matmul high (n_ self))))
                ((λ n, fdiv n (Fin 2)) <$> n_ self))
             (window_ self)))))
    ((λ b, fmul (Fin 2) b) <$> zip_with fsub high low)
  = zip_with (kernel_sin self) low high.
Proof.
  revert high. induction low as [| lo low IH]; intros [| hi high];
    try reflexivity.
  specialize (IH high).
  unfold torch.div_col, torch.cat1, torch.flip, torch.neg, torch.mul_row,
    torch.div_row, torch.sub, torch.cos, torch.matmul in *.
  simpl. f_equal. exact IH.
Qed.

Lemma make_filters_cos (self : SincParamFB) (low high : list float) :
  well_shaped self →
  length low = Z.to_nat (n_filters self / 2) →
  length high = Z.to_nat (n_filters self / 2) →
  make_filters self low high "cos"
  = Ok ((λ row, [row]) <$> zip_with (kernel_cos self) low high).
Proof.
  intros [Hw Hk Hh _ _] Hlow Hhigh.
  unfold make_filters, band_pass_blocks. simpl.
  rewrite band_pass_cos.
  apply view3_rows.
  - lia.
  - rewrite length_zip_with. lia.
  - assumption.
  - apply Forall_lookup. intros i r Hr.
    apply lookup_zip_with_Some in Hr as (lo & hi & -> & _ & _).
    rewrite length_kernel_cos by assumption. lia.
Qed.

Lemma make_filters_sin (self : SincParamFB) (low high : list float) :
  well_shaped self →
  length low = Z.to_nat (n_filters self / 2) →
  length high = Z.to_nat (n_filters self / 2) →
  make_filters self low high "sin"
  = Ok ((λ row, [row]) <$> zip_with (kernel_sin self) low high).
Proof.
  intros [Hw Hk Hh _ _] Hlow Hhigh.
  unfold make_filters, band_pass_blocks. simpl.
  rewrite band_pass_sin.
  apply view3_rows.
  - lia.
  - rewrite length_zip_with. lia.
  - assumption.
  - apply Forall_lookup. intros i r Hr.
    apply lookup_zip_with_Some in Hr as (lo & hi & -> & _ & _).
    rewrite length_kernel_sin by assumption. lia.
Qed.

(** ** Construction *)

Lemma linspace_Ok (start stop : float) (num : Z) :
  (0 ≤ num)%Z →
  ∃ mel, np.linspace start stop num = Ok mel ∧ length mel = Z.to_nat num.
Proof.
  intros Hnum. unfold np.linspace.
  destruct (Z.ltb_spec num 0) as [H | _]; [lia |].
  eexists. split; [reflexivity |].
  destruct (Z.ltb_spec 1 num) as [H | H].
  - rewrite length_app, length_take, !length_fmap, length_seqZ. simpl. lia.
  - rewrite !length_fmap, length_seqZ. reflexivity.
Qed.

Lemma linspace_lookup (start stop : float) (num : Z) (mel : list float) :
  (1 < num)%Z →
  np.linspace start stop num = Ok mel →
  (∀ i : nat, (Z.of_nat i < num - 1)%Z →
     mel !! i
     = Some (fadd (fmul (Fin (IZR (Z.of_nat i)))
                     (fdiv (fsub stop start) (Fin (IZR (num - 1)))))
               start))
  ∧ mel !! Z.to_nat (num - 1) = Some stop.
Proof.
  intros Hnum. unfold np.linspace.
  destruct (Z.ltb_spec num 0) as [H | _]; [lia |].
  destruct (Z.ltb_spec 1 num) as [_ | H]; [| lia].
  intros [= <-]. split.
  - intros i Hi.
    rewrite lookup_app_l
      by (rewrite length_take, !length_fmap, length_seqZ; lia).
    rewrite lookup_take_lt by (rewrite !length_fmap, length_seqZ; lia).
    rewrite !list_lookup_fmap.
    assert (Hs : seqZ 0 num !! i = Some (Z.of_nat i))
      by (apply lookup_seqZ; lia).
    rewrite Hs. reflexivity.
  - apply list_lookup_middle.
    rewrite length_take, !length_fmap, length_seqZ. lia.
Qed.

Lemma to_mel_cases (x : R) :
  (∃ m, to_mel (Fin x) = Fin m)
  ∨ to_mel (Fin x) = NInf ∨ to_mel (Fin x) = NaN.
Proof.
  unfold to_mel. rewrite fdiv_Fin by lra. simpl.
  destruct (Rsgn (1 + x / 700)); simpl; eauto.
  rewrite Rsgn_pos by lra. simpl. auto.
Qed.

(** The last of the evenly spaced samples is the end point. *)
Lemma linspace_last (a : R) (stop : float) (N : Z) :
  (0 < N)%Z →
  (∃ b, stop = Fin b) ∨ stop = NInf ∨ stop = NaN →
  fadd (fmul (Fin (IZR N)) (fdiv (fsub stop (Fin a)) (Fin (IZR N)))) (Fin a)
  = stop.
Proof.
  intros HN Hstop.
  assert (HN' : 0 < IZR N) by (apply IZR_lt; assumption).
  destruct Hstop as [[b ->] | [-> | ->]].
  - change (fsub (Fin b) (Fin a)) with (Fin (b + - a)).
    rewrite fdiv_Fin by lra. simpl. f_equal. field. lra.
  - simpl. destruct (Rlt_dec (IZR N) 0) as [H | H]; [lra |].
    rewrite Rsgn_pos by assumption. reflexivity.
  - reflexivity.
Qed.

Lemma diff_lookup (a : list float) (i : nat) (x y : float) :
  a !! i = Some x → a !! S i = Some y → np.diff a !! i = Some (fsub y x).
Proof.
  intros Hx Hy. unfold np.diff.
  rewrite lookup_zip_with, lookup_drop. simpl. rewrite Hy. simpl.
  rewrite lookup_take_lt by (apply lookup_lt_Some in Hy; lia).
  rewrite Hx. reflexivity.
Qed.

Lemma length_diff (a : list float) : length (np.diff a) = (length a - 1)%nat.
Proof.
  unfold np.diff. rewrite length_zip_with, length_drop, length_take. lia.
Qed.

Lemma initialize_filters_Ok (n : Z) (sr ml mb : R) :
  (0 ≤ n / 2 + 1)%Z →
  ∃ hz, mel_points n sr ml mb = Ok hz
        ∧ length hz = Z.to_nat (n / 2 + 1)
        ∧ _initialize_filters n sr ml mb
          = Ok (take (length hz - 1) hz, np.diff hz).
Proof.
  intros Hn. unfold _initialize_filters, mel_points.
  destruct (linspace_Ok (to_mel (Fin 30))
              (to_mel (Fin (sr / 2 - (ml + mb)))) (n / 2 + 1) Hn)
    as (mel & -> & Hlen).
  simpl. eexists. split; [reflexivity |]. split; [| reflexivity].
  rewrite length_fmap. assumption.
Qed.

Lemma initialize_filters_Error (n : Z) (sr ml mb : R) :
  (n / 2 + 1 < 0)%Z →
  ∃ msg, _initialize_filters n sr ml mb = Error (ValueError msg).
Proof.
  intros Hn. unfold _initialize_filters, mel_points, np.linspace.
  destruct (Z.ltb_spec (n / 2 + 1) 0) as [_ | H]; [| lia].
  simpl. eauto.
Qed.

Lemma length_hamming (M : Z) :
  (1 ≤ M)%Z → length (np.hamming M) = Z.to_nat M.
Proof.
  intros HM. unfold np.hamming.
  destruct (Z.ltb_spec M 1) as [H | _]; [lia |].
  destruct (Z.eqb_spec M 1) as [-> | H]; [reflexivity |].
  rewrite length_fmap, length_seqZ. reflexivity.
Qed.

Lemma hamming_lookup (M : Z) (k : nat) :
  (1 < M)%Z → (Z.of_nat k < M)%Z →
  np.hamming M !! k
  = Some (Fin (0.54 - 0.46 * cos (2 * PI * IZR (Z.of_nat k) / IZR (M - 1)))).
Proof.
  intros HM Hk. unfold np.hamming.
  destruct (Z.ltb_spec M 1) as [H | _]; [lia |].
  destruct (Z.eqb_spec M 1) as [H | _]; [lia |].
  rewrite list_lookup_fmap.
  assert (Hs : seqZ 0 M !! k = Some (Z.of_nat k)) by (apply lookup_seqZ; lia).
  rewrite Hs. reflexivity.
Qed.

(** The stored kernel size: the next odd number when the argument is even. *)
Lemma forced_odd (k : Z) :
  ((if (k mod 2 =? 0)%Z then k + 1 else k) mod 2 = 1)%Z.
Proof.
  destruct (Z.eqb_spec (k mod 2) 0) as [H | H].
  - rewrite Z.add_mod, H by lia. reflexivity.
  - pose proof (Z.mod_pos_bound k 2). lia.
Qed.

(** What the constructor returns when the initialization succeeds. *)
Lemma init_Ok (n k st : Z) (mode : string) (sr ml mb : R)
    (low band : list float) :
  (0 ≤ k)%Z →
  _initialize_filters n sr ml mb = Ok (low, band) →
  let K := if (k mod 2 =? 0)%Z then (k + 1)%Z else k in
  snd (__init__ n k st mode sr ml mb)
  = Ok {| base := EncoderDecoder_init st mode; n_filters := n;
          kernel_size := K; stride := st; sample_rate := sr;
          min_low_hz := ml; min_band_hz := mb; cutoff := (K / 2)%Z;
          low_hz_ := low; band_hz_ := band;
          window_ := slice_to (K / 2) (np.hamming K);
          n_ := (λ t, fmul (Fin (2 * PI)) (fdiv t (Fin sr)))
                  <$> torch.whole_numbers (- (K / 2)) 0 |}.
Proof.
  intros Hk Hinit. unfold __init__.
  destruct (k mod 2 =? 0)%Z; simpl; rewrite Hinit; simpl;
    unfold torch.arange.
  - assert (H : (0 ≤ (k + 1) / 2)%Z) by (apply Z.div_pos; lia).
    destruct (Z.ltb_spec 0 (- ((k + 1) / 2))) as [H' | _]; [lia |].
    reflexivity.
  - assert (H : (0 ≤ k / 2)%Z) by (apply Z.div_pos; lia).
    destruct (Z.ltb_spec 0 (- (k / 2))) as [H' | _]; [lia |].
    reflexivity.
Qed.

(** Conversely, an instance comes out of the constructor only that way. *)
Lemma init_inv (n k st : Z) (mode : string) (sr ml mb : R)
    (self : SincParamFB) :
  snd (__init__ n k st mode sr ml mb) = Ok self →
  let K := if (k mod 2 =? 0)%Z then (k + 1)%Z else k in
  ∃ low band,
    _initialize_filters n sr ml mb = Ok (low, band)
    ∧ self
      = {| base := EncoderDecoder_init st mode; n_filters := n;
           kernel_size := K; stride := st; sample_rate := sr;
           min_low_hz := ml; min_band_hz := mb; cutoff := (K / 2)%Z;
           low_hz_ := low; band_hz_ := band;
           window_ := slice_to (K / 2) (np.hamming K);
           n_ := (λ t, fmul (Fin (2 * PI)) (fdiv t (Fin sr)))
                   <$> torch.whole_numbers (- (K / 2)) 0 |}.
Proof.
  unfold __init__.
  destruct (_initialize_filters n sr ml mb) as [[low band] | e] eqn:Hinit;
    destruct (k mod 2 =? 0)%Z; simpl; unfold torch.arange;
    try discriminate.
  - destruct (0 <? - ((k + 1) / 2))%Z; simpl; [discriminate |].
    intros [= <-]. eauto.
  - destruct (0 <? - (k / 2))%Z; simpl; [discriminate |].
    intros [= <-]. eauto.
Qed.

Lemma init_Error (n k st : Z) (mode : string) (sr ml mb : R) (e : exn) :
  _initialize_filters n sr ml mb = Error e →
  snd (__init__ n k st mode sr ml mb) = Error e.
Proof.
  intros Hinit. unfold __init__.
  destruct (k mod 2 =? 0)%Z; simpl; rewrite Hinit; reflexivity.
Qed.

Lemma length_whole_numbers (a b : Z) :
  length (torch.whole_numbers a b) = Z.to_nat (b - a).
Proof.
  unfold torch.whole_numbers. rewrite length_fmap, length_seqZ. reflexivity.
Qed.

(** A freshly constructed instance is well shaped. *)
Lemma init_well_shaped (n k st : Z) (mode : string) (sr ml mb : R)
    (self : SincParamFB) :
  (0 ≤ n)%Z → (0 < k)%Z →
  snd (__init__ n k st mode sr ml mb) = Ok self →
  well_shaped self.
Proof.
  intros Hn Hk Hself.
  assert (Hn' : (0 ≤ n / 2)%Z) by (apply Z.div_pos; lia).
  destruct (initialize_filters_Ok n sr ml mb) as (hz & _ & Hlen & Hinit);
    [lia |].
  rewrite (init_Ok n k st mode sr ml mb _ _ ltac:(lia) Hinit) in Hself.
  injection Hself as <-.
  pose proof (forced_odd k) as Hodd.
  set (K := if (k mod 2 =? 0)%Z then (k + 1)%Z else k) in *.
  assert (HK : (0 < K)%Z) by (subst K; destruct (k mod 2 =? 0)%Z; lia).
  pose proof (Z.div_mod K 2 ltac:(lia)) as Hdm.
  split; simpl.
  - rewrite length_fmap, length_whole_numbers.
    unfold slice_to. destruct (Z.ltb_spec (K / 2) 0) as [H | _]; [lia |].
    rewrite length_take, length_hamming by lia. lia.
  - rewrite length_fmap, length_whole_numbers. lia.
  - assumption.
  - rewrite length_take. lia.
  - rewrite length_diff. lia.
Qed.

Lemma update_well_shaped (self : SincParamFB) (low band : list float) :
  well_shaped self →
  length low = length (low_hz_ self) →
  length band = length (band_hz_ self) →
  well_shaped (update self low band).
Proof.
  intros [Hw Hk Hh Hl Hb] Hlow Hband. split; simpl; congruence.
Qed.

(** C6: for a positive [kernel_size] argument [k], the constructor prints
    its one-line diagnostic exactly when [k] is even, and whether it
    succeeds does not depend on [k] (it fails only in [np.linspace], on a
    negative number of points); the instance it returns stores [k + 1] when
    [k] is even and [k] when [k] is odd, which is odd in both cases, and
    its [cutoff] is [(kernel_size - 1) / 2]. *)
Theorem kernel_size_forced_odd (n k st : Z) (mode : string) (sr ml mb : R) :
  (0 < k)%Z →
  fst (__init__ n k st mode sr ml mb)
  = (if (k mod 2 =? 0)%Z
     then [("Received kernel_size=" ++ str k ++ ", force kernel_size="
            ++ str (k + 1) ++ " so filters are odd")%string]
     else [])
  ∧ ((∃ self, snd (__init__ n k st mode sr ml mb) = Ok self)
     ↔ (0 ≤ n / 2 + 1)%Z)
  ∧ ∀ self, snd (__init__ n k st mode sr ml mb) = Ok self →
      kernel_size self = (if (k mod 2 =? 0)%Z then k + 1 else k)%Z
      ∧ (kernel_size self mod 2 = 1)%Z
      ∧ cutoff self = ((kernel_size self - 1) / 2)%Z.
Proof.
  intros Hk. split; [| split].
  - unfold __init__. destruct (k mod 2 =? 0)%Z; reflexivity.
  - split.
    + intros [self Hself].
      destruct (Z.le_gt_cases 0 (n / 2 + 1)) as [H | H]; [assumption |].
      destruct (initialize_filters_Error n sr ml mb) as [msg Hmsg]; [lia |].
      rewrite (init_Error _ _ _ _ _ _ _ _ Hmsg) in Hself. discriminate.
    + intros Hn.
      destruct (initialize_filters_Ok n sr ml mb Hn) as (hz & _ & _ & Hinit).
      rewrite (init_Ok n k st mode sr ml mb _ _ ltac:(lia) Hinit). eauto.
  - intros self Hself.
    destruct (_initialize_filters n sr ml mb) as [[low band] | e] eqn:Hinit.
    + rewrite (init_Ok n k st mode sr ml mb _ _ ltac:(lia) Hinit) in Hself.
      injection Hself as <-. simpl.
      pose proof (forced_odd k) as Hodd.
      set (K := if (k mod 2 =? 0)%Z then (k + 1)%Z else k) in *.
      split; [reflexivity |]. split; [assumption |].
      pose proof (Z.div_mod K 2 ltac:(lia)) as Hdm.
      replace (K - 1)%Z with (K / 2 * 2)%Z by lia.
      rewrite Z.div_mul by lia. reflexivity.
    + rewrite (init_Error _ _ _ _ _ _ _ _ Hinit) in Hself. discriminate.
Qed.

Lemma kernel_size_forced_odd_witness :
  fst (__init__ 4 4 1 "encoder" 16000 50 50)
  = ["Received kernel_size=4, force kernel_size=5 so filters are odd"%string]
  ∧ ∀ self, snd (__init__ 4 4 1 "encoder" 16000 50 50) = Ok self →
      kernel_size self = 5%Z
      ∧ (kernel_size self mod 2 = 1)%Z
      ∧ cutoff self = ((kernel_size self - 1) / 2)%Z.
Proof.
  pose proof (kernel_size_forced_odd 4 4 1 "encoder" 16000 50 50) as H.
  destruct H as (Hout & _ & Hself); [lia |].
  split; [exact Hout | exact Hself].
Defined.

Lemma fadd_comm (a b : float) : fadd a b = fadd b a.
Proof.
  destruct a, b; simpl; try reflexivity. f_equal. apply Rplus_comm.
Qed.

(** The points computed by [mel_points] are the ones of the specification. *)
Lemma mel_points_spec (n : Z) (sr ml mb : R) (hz : list float) :
  (0 < n / 2)%Z →
  mel_points n sr ml mb = Ok hz →
  ∀ i : nat,
    (Z.of_nat i ≤ n / 2)%Z → hz !! i = Some (spec_hz n sr ml mb i).
Proof.
  intros Hn Hhz i Hi. unfold mel_points in Hhz.
  destruct (np.linspace (to_mel (Fin 30))
              (to_mel (Fin (sr / 2 - (ml + mb)))) (n / 2 + 1))
    as [mel | e] eqn:Hmel; [| discriminate].
  injection Hhz as <-.
  apply linspace_lookup in Hmel as [Hfront Hlast]; [| lia].
  replace (n / 2 + 1 - 1)%Z with (n / 2)%Z in * by lia.
  rewrite list_lookup_fmap. unfold spec_hz, spec_mel_point.
  destruct (Z.eq_dec (Z.of_nat i) (n / 2)%Z) as [Heq | Hne].
  - replace i with (Z.to_nat (n / 2)) by lia.
    rewrite Hlast. simpl. do 2 f_equal.
    rewrite Z2Nat.id by lia. rewrite fadd_comm.
    rewrite (to_mel_Fin 30) by lra. symmetry.
    apply linspace_last; [assumption | apply to_mel_cases].
  - rewrite Hfront by lia. simpl. do 2 f_equal. apply fadd_comm.
Qed.

(** In the usual case of an upper bound above -700 Hz all the points are
    finite, and they are the real numbers one expects. *)
Lemma spec_hz_finite (n : Z) (sr ml mb : R) (i : nat) :
  (0 < n / 2)%Z → -700 < sr / 2 - (ml + mb) →
  let a := 2595 * (ln (1 + 30 / 700) / ln 10) in
  let b := 2595 * (ln (1 + (sr / 2 - (ml + mb)) / 700) / ln 10) in
  spec_hz n sr ml mb i
  = Fin (700 * (Rpower 10 ((a + IZR (Z.of_nat i) * ((b - a) / IZR (n / 2)))
                           / 2595) - 1)).
Proof.
  intros Hn Hhigh a b. unfold spec_hz, spec_mel_point.
  rewrite !to_mel_Fin by lra. fold a b.
  change (fsub (Fin b) (Fin a)) with (Fin (b + - a)).
  assert (HN : 0 < IZR (n / 2)) by (apply IZR_lt; assumption).
  rewrite fdiv_Fin by lra. simpl fmul. simpl fadd.
  rewrite to_hz_Fin. reflexivity.
Qed.

(** C5: for a positive (in particular a positive even) [n_filters] and a
    positive [kernel_size] the constructor succeeds, both parameter
    tensors have [n_filters // 2] entries, and with [hz] the image under
    [to_hz] of the [n_filters // 2 + 1] linearly spaced points between
    [to_mel 30] and [to_mel (sample_rate / 2 - (min_low_hz + min_band_hz))],
    entry [i] of [low_hz_] is [hz i] (the last point is dropped) and entry
    [i] of [band_hz_] is the first difference [hz (i + 1) - hz i]. *)
Theorem initial_parameters (n k st : Z) (mode : string) (sr ml mb : R) :
  (0 < n)%Z → (0 < k)%Z →
  ∃ self,
    snd (__init__ n k st mode sr ml mb) = Ok self
    ∧ length (low_hz_ self) = Z.to_nat (n / 2)
    ∧ length (band_hz_ self) = Z.to_nat (n / 2)
    ∧ ∀ i : nat, (Z.of_nat i < n / 2)%Z →
        low_hz_ self !! i = Some (spec_hz n sr ml mb i)
        ∧ band_hz_ self !! i
          = Some (fsub (spec_hz n sr ml mb (S i)) (spec_hz n sr ml mb i)).
Proof.
  intros Hn Hk.
  assert (Hn' : (0 ≤ n / 2)%Z) by (apply Z.div_pos; lia).
  destruct (initialize_filters_Ok n sr ml mb) as (hz & Hhz & Hlen & Hinit);
    [lia |].
  eexists.
  split; [apply (init_Ok n k st mode sr ml mb _ _ ltac:(lia) Hinit) |].
  simpl. split; [rewrite length_take; lia |].
  split; [rewrite length_diff; lia |].
  intros i Hi.
  pose proof (mel_points_spec n sr ml mb hz ltac:(lia) Hhz) as Hspec.
  split.
  - rewrite lookup_take_lt by lia. apply Hspec. lia.
  - apply diff_lookup; apply Hspec; lia.
Qed.

Lemma initial_parameters_witness :
  ∃ self,
    snd (__init__ 4 5 1 "encoder" 16000 50 50) = Ok self
    ∧ length (low_hz_ self) = 2%nat
    ∧ length (band_hz_ self) = 2%nat
    ∧ ∀ i : nat, (Z.of_nat i < 2)%Z →
        low_hz_ self !! i = Some (spec_hz 4 16000 50 50 i)
        ∧ band_hz_ self !! i
          = Some (fsub (spec_hz 4 16000 50 50 (S i))
                    (spec_hz 4 16000 50 50 i)).
Proof.
  apply (initial_parameters 4 5 1 "encoder" 16000 50 50); lia.
Defined.

(** ** Effective frequencies *)

(** Case analysis on every absolute value, minimum and maximum in sight,
    then linear arithmetic. *)
Ltac real_cases :=
  unfold spec_high, spec_low, Rmin, Rmax, Rabs in *;
  repeat match goal with
    | |- context [Rle_dec ?x ?y] => destruct (Rle_dec x y)
    | |- context [Rcase_abs ?x] => destruct (Rcase_abs x)
    | H : context [Rle_dec ?x ?y] |- _ => destruct (Rle_dec x y)
    | H : context [Rcase_abs ?x] |- _ => destruct (Rcase_abs x)
    end;
  try lra.

Lemma length_effective_low (self : SincParamFB) :
  length (effective_low self) = length (low_hz_ self).
Proof. unfold effective_low. apply length_fmap. Qed.

Lemma length_effective_high (self : SincParamFB) :
  length (band_hz_ self) = length (low_hz_ self) →
  length (effective_high self) = length (low_hz_ self).
Proof.
  intros H. unfold effective_high.
  rewrite length_zip_with, length_effective_low. lia.
Qed.

Lemma effective_low_lookup (self : SincParamFB) (ls : list R) (i : nat)
    (l : R) :
  low_hz_ self = Fin <$> ls → ls !! i = Some l →
  effective_low self !! i = Some (Fin (spec_low (min_low_hz self) l)).
Proof.
  intros Hls Hl. unfold effective_low.
  rewrite Hls, !list_lookup_fmap, Hl. reflexivity.
Qed.

Lemma effective_high_lookup (self : SincParamFB) (ls bs : list R) (i : nat)
    (l b : R) :
  low_hz_ self = Fin <$> ls → band_hz_ self = Fin <$> bs →
  ls !! i = Some l → bs !! i = Some b →
  effective_high self !! i
  = Some (Fin (spec_high (sample_rate self) (min_low_hz self)
                 (min_band_hz self) l b)).
Proof.
  intros Hls Hbs Hl Hb. unfold effective_high.
  rewrite lookup_zip_with, (effective_low_lookup self ls i l Hls Hl).
  rewrite Hbs, list_lookup_fmap, Hb. reflexivity.
Qed.


Lemma init_succeeds (n k st : Z) (mode : string) (sr ml mb : R) :
  (0 ≤ n / 2 + 1)%Z → (0 ≤ k)%Z →
  ∃ self, snd (__init__ n k st mode sr ml mb) = Ok self.
Proof.
  intros Hn Hk.
  destruct (initialize_filters_Ok n sr ml mb Hn) as (hz & _ & _ & Hinit).
  rewrite (init_Ok n k st mode sr ml mb _ _ Hk Hinit). eauto.
Qed.

(** The configuration and the buffers of a constructed instance. *)
Lemma init_fields (n k st : Z) (mode : string) (sr ml mb : R)
    (self : SincParamFB) :
  snd (__init__ n k st mode sr ml mb) = Ok self →
  let K := if (k mod 2 =? 0)%Z then (k + 1)%Z else k in
  n_filters self = n ∧ kernel_size self = K ∧ sample_rate self = sr
  ∧ min_low_hz self = ml ∧ min_band_hz self = mb
  ∧ window_ self = slice_to (K / 2) (np.hamming K)
  ∧ n_ self = (λ t, fmul (Fin (2 * PI)) (fdiv t (Fin sr)))
                <$> torch.whole_numbers (- (K / 2)) 0.
Proof.
  intros Hself.
  destruct (init_inv _ _ _ _ _ _ _ _ Hself) as (low & band & _ & ->).
  simpl. repeat split; reflexivity.
Qed.

Lemma kernel_size_cutoff (n k st : Z) (mode : string) (sr ml mb : R)
    (self : SincParamFB) :
  snd (__init__ n k st mode sr ml mb) = Ok self →
  kernel_size self = (if (k mod 2 =? 0)%Z then (k + 1)%Z else k)
  ∧ cutoff self = (kernel_size self / 2)%Z.
Proof.
  intros Hself.
  destruct (init_inv _ _ _ _ _ _ _ _ Hself) as (low & band & _ & ->).
  simpl. split; reflexivity.
Qed.



(** ** The buffers and the kernels in real numbers *)

Lemma spec_n_nonzero (sr : R) (K : Z) (j : nat) :
  sr ≠ 0 → (Z.of_nat j < K / 2)%Z → spec_n sr K j ≠ 0.
Proof.
  intros Hsr Hj. unfold spec_n.
  assert (Ht : IZR (Z.of_nat j - K / 2) < 0) by (apply IZR_lt; lia).
  pose proof PI_RGT_0 as Hpi.
  intros H. apply Rmult_integral in H as [H | H].
  - nra.
  - apply Rinv_neq_0_compat in Hsr. contradiction.
Qed.

Lemma n_real (sr : R) (K : Z) :
  sr ≠ 0 →
  (λ t, fmul (Fin (2 * PI)) (fdiv t (Fin sr)))
    <$> torch.whole_numbers (- (K / 2)) 0
  = (λ j, Fin (spec_n sr K j)) <$> seq 0 (Z.to_nat (K / 2)).
Proof.
  intros Hsr. unfold torch.whole_numbers, seqZ.
  rewrite <- !list_fmap_compose.
  replace (Z.to_nat (0 - - (K / 2))) with (Z.to_nat (K / 2)) by lia.
  apply list_fmap_ext. intros i j Hj. simpl.
  destruct (Req_dec_T sr 0) as [H | _]; [contradiction |].
  unfold spec_n. do 2 f_equal.
  replace (Z.of_nat j + - (K / 2))%Z with (Z.of_nat j - K / 2)%Z by lia.
  unfold Rdiv. ring.
Qed.

Lemma window_real (K : Z) :
  (0 < K)%Z → (K mod 2 = 1)%Z →
  slice_to (K / 2) (np.hamming K)
  = (λ j, Fin (spec_w K j)) <$> seq 0 (Z.to_nat (K / 2)).
Proof.
  intros HK Hodd.
  pose proof (Z.div_mod K 2 ltac:(lia)) as Hdm.
  unfold slice_to. destruct (Z.ltb_spec (K / 2) 0) as [H | _]; [lia |].
  apply list_eq. intros j.
  rewrite list_lookup_fmap.
  destruct (decide (j < Z.to_nat (K / 2))%nat) as [Hj | Hj].
  - rewrite lookup_take_lt, lookup_seq_lt by assumption.
    rewrite hamming_lookup by lia. reflexivity.
  - rewrite lookup_take_ge, lookup_seq_ge by lia. reflexivity.
Qed.

Section Kernels.

Variables (self : SincParamFB) (sr : R) (K : Z).
Hypothesis Hsr : sr ≠ 0.
Hypothesis Hn :
  n_ self = (λ j, Fin (spec_n sr K j)) <$> seq 0 (Z.to_nat (K / 2)).
Hypothesis Hw :
  window_ self = (λ j, Fin (spec_w K j)) <$> seq 0 (Z.to_nat (K / 2)).

Lemma left_cos_real (lo hi : R) :
  left_cos self (Fin lo) (Fin hi) = Fin <$> spec_left_cos sr K lo hi.
Proof using Hsr Hn Hw.
  unfold left_cos, half_n, spec_left_cos. rewrite Hn, Hw.
  rewrite <- !list_fmap_compose.
  repeat (rewrite zip_with_fmap_l || rewrite zip_with_fmap_r
          || rewrite zip_with_diag).
  apply list_fmap_ext. intros i j Hj.
  apply lookup_seq in Hj as [-> Hj].
  pose proof (spec_n_nonzero sr K i Hsr ltac:(lia)) as Hnz.
  simpl.
  destruct (Req_dec_T 2 0) as [H | _]; [lra |].
  destruct (Req_dec_T (spec_n sr K i / 2) 0) as [H | _]; [lra |].
  do 3 f_equal; f_equal; ring.
Qed.

Lemma left_sin_real (lo hi : R) :
  left_sin self (Fin lo) (Fin hi) = Fin <$> spec_left_sin sr K lo hi.
Proof using Hsr Hn Hw.
  unfold left_sin, half_n, spec_left_sin. rewrite Hn, Hw.
  rewrite <- !list_fmap_compose.
  repeat (rewrite zip_with_fmap_l || rewrite zip_with_fmap_r
          || rewrite zip_with_diag).
  apply list_fmap_ext. intros i j Hj.
  apply lookup_seq in Hj as [-> Hj].
  pose proof (spec_n_nonzero sr K i Hsr ltac:(lia)) as Hnz.
  simpl.
  destruct (Req_dec_T 2 0) as [H | _]; [lra |].
  destruct (Req_dec_T (spec_n sr K i / 2) 0) as [H | _]; [lra |].
  do 3 f_equal; f_equal; ring.
Qed.

Lemma kernel_cos_real (lo hi : R) :
  hi - lo ≠ 0 →
  kernel_cos self (Fin lo) (Fin hi) = Fin <$> spec_kernel_cos sr K lo hi.
Proof using Hsr Hn Hw.
  intros Hband. unfold kernel_cos, spec_kernel_cos.
  rewrite left_cos_real.
  change (fmul (Fin 2) (fsub (Fin hi) (Fin lo)))
    with (Fin (2 * (hi + - lo))).
  rewrite <- fmap_reverse.
  change [Fin (2 * (hi + - lo))] with (Fin <$> [2 * (hi + - lo)]).
  rewrite <- !fmap_app, <- !list_fmap_compose, <- app_assoc.
  apply list_fmap_ext. intros i x _. simpl.
  destruct (Req_dec_T (2 * (hi + - lo)) 0) as [H | _]; [lra |].
  replace (hi + - lo) with (hi - lo) by ring. reflexivity.
Qed.

Lemma kernel_sin_real (lo hi : R) :
  hi - lo ≠ 0 →
  kernel_sin self (Fin lo) (Fin hi) = Fin <$> spec_kernel_sin sr K lo hi.
Proof using Hsr Hn Hw.
  intros Hband. unfold kernel_sin, spec_kernel_sin.
  rewrite left_sin_real.
  change (fmul (Fin 2) (fsub (Fin hi) (Fin lo)))
    with (Fin (2 * (hi + - lo))).
  rewrite <- fmap_reverse, <- list_fmap_compose.
  change [Fin 0] with (Fin <$> [0]).
  change (fneg ∘ Fin) with (Fin ∘ Ropp). rewrite list_fmap_compose.
  rewrite <- !fmap_app, <- !list_fmap_compose, <- app_assoc.
  apply list_fmap_ext. intros i x _. simpl.
  destruct (Req_dec_T (2 * (hi + - lo)) 0) as [H | _]; [lra |].
  replace (hi + - lo) with (hi - lo) by ring. reflexivity.
Qed.

End Kernels.

(** ** Generation *)

Lemma shape3_app (a b : list (list (list float))) (d0 e0 d1 d2 : Z) :
  shape3 a d0 d1 d2 → shape3 b e0 d1 d2 → shape3 (a ++ b) (d0 + e0) d1 d2.
Proof.
  intros [Ha Hra] [Hb Hrb]. split.
  - rewrite length_app. lia.
  - apply Forall_app. split; assumption.
Qed.

Lemma shape3_rows (rows : list (list float)) (d0 d2 : Z) :
  Z.of_nat (length rows) = d0 →
  Forall (λ r, Z.of_nat (length r) = d2) rows →
  shape3 ((λ row, [row]) <$> rows) d0 1 d2.
Proof.
  intros Hlen Hrows. split.
  - rewrite length_fmap. assumption.
  - apply Forall_fmap. eapply Forall_impl; [exact Hrows |].
    intros r Hr. simpl. split; [reflexivity |].
    apply Forall_singleton. assumption.
Qed.

Lemma shape3_kernels (self : SincParamFB) (low high : list float) :
  well_shaped self →
  length low = Z.to_nat (n_filters self / 2) →
  length high = Z.to_nat (n_filters self / 2) →
  shape3 ((λ row, [row]) <$> zip_with (kernel_cos self) low high)
    (n_filters self / 2) 1 (kernel_size self)
  ∧ shape3 ((λ row, [row]) <$> zip_with (kernel_sin self) low high)
      (n_filters self / 2) 1 (kernel_size self).
Proof.
  intros [Hw Hk Hh _ _] Hlow Hhigh.
  split; apply shape3_rows;
    try (rewrite length_zip_with; lia);
    apply Forall_lookup; intros i r Hr;
    apply lookup_zip_with_Some in Hr as (lo & hi & -> & _ & _).
  - rewrite length_kernel_cos by assumption. lia.
  - rewrite length_kernel_sin by assumption. lia.
Qed.

Lemma filters_bank (self : SincParamFB) :
  well_shaped self →
  make_filters self (effective_low self) (effective_high self) "cos"
  = Ok ((λ row, [row]) <$> zip_with (kernel_cos self) (effective_low self)
                             (effective_high self))
  ∧ make_filters self (effective_low self) (effective_high self) "sin"
    = Ok ((λ row, [row]) <$> zip_with (kernel_sin self) (effective_low self)
                               (effective_high self))
  ∧ filters self
    = Ok (((λ row, [row]) <$> zip_with (kernel_cos self) (effective_low self)
                                (effective_high self))
          ++ ((λ row, [row]) <$> zip_with (kernel_sin self)
                                   (effective_low self)
                                   (effective_high self))).
Proof.
  intros Hws.
  assert (Hlow : length (effective_low self) = Z.to_nat (n_filters self / 2))
    by (rewrite length_effective_low; apply Hws).
  assert (Hhigh : length (effective_high self)
                  = Z.to_nat (n_filters self / 2)).
  { rewrite length_effective_high; [apply Hws |].
    rewrite (ws_band self Hws), (ws_low self Hws). reflexivity. }
  pose proof (make_filters_cos self _ _ Hws Hlow Hhigh) as Hcos.
  pose proof (make_filters_sin self _ _ Hws Hlow Hhigh) as Hsin.
  split; [assumption |]. split; [assumption |].
  unfold filters. rewrite Hcos, Hsin. reflexivity.
Qed.

(** The bank generated by a constructed instance whose parameters were
    set to the real values [ls] and [bs]. *)
Lemma generated_bank (n k st : Z) (mode : string) (sr ml mb : R)
    (self0 : SincParamFB) (ls bs : list R) :
  (0 ≤ n)%Z → (0 < k)%Z →
  snd (__init__ n k st mode sr ml mb) = Ok self0 →
  length ls = Z.to_nat (n / 2) → length bs = Z.to_nat (n / 2) →
  let self := update self0 (Fin <$> ls) (Fin <$> bs) in
  ∃ bank,
    filters self = Ok bank
    ∧ shape3 bank (n / 2 + n / 2) 1 (kernel_size self0)
    ∧ ∀ (i : nat) (l b : R), ls !! i = Some l → bs !! i = Some b →
        bank !! i
        = Some [kernel_cos self0 (Fin (spec_low ml l))
                  (Fin (spec_high sr ml mb l b))]
        ∧ bank !! (Z.to_nat (n / 2) + i)%nat
          = Some [kernel_sin self0 (Fin (spec_low ml l))
                    (Fin (spec_high sr ml mb l b))].
Proof.
  intros Hn Hk Hself0 Hls Hbs self.
  pose proof (init_well_shaped _ _ _ _ _ _ _ _ Hn Hk Hself0) as Hws0.
  destruct (init_fields _ _ _ _ _ _ _ _ Hself0)
    as (Hnf & _ & Hsr & Hml & Hmb & _).
  assert (Hws : well_shaped self).
  { apply update_well_shaped; [assumption | |];
      rewrite length_fmap; [rewrite (ws_low _ Hws0) | rewrite (ws_band _ Hws0)];
      congruence. }
  destruct (filters_bank self Hws) as (_ & _ & Hbank).
  assert (Hlow : length (effective_low self) = Z.to_nat (n / 2)).
  { rewrite length_effective_low. simpl. rewrite length_fmap. assumption. }
  assert (Hhigh : length (effective_high self) = Z.to_nat (n / 2)).
  { rewrite length_effective_high; simpl; rewrite !length_fmap; congruence. }
  eexists. split; [exact Hbank |]. split.
  - destruct (shape3_kernels self (effective_low self) (effective_high self)
                Hws) as [Hc Hs];
      [simpl; congruence | simpl; congruence |].
    simpl in Hc, Hs. rewrite Hnf in Hc, Hs.
    apply shape3_app; assumption.
  - intros i l b Hl Hb.
    pose proof (effective_low_lookup self ls i l eq_refl Hl) as Hlo.
    pose proof (effective_high_lookup self ls bs i l b eq_refl eq_refl Hl Hb)
      as Hhi.
    simpl in Hlo, Hhi. rewrite Hml in Hlo. rewrite Hsr, Hml, Hmb in Hhi.
    pose proof (lookup_lt_Some _ _ _ Hl) as Hi.
    split.
    + rewrite lookup_app_l
        by (rewrite length_fmap, length_zip_with; lia).
      rewrite list_lookup_fmap, lookup_zip_with, Hlo, Hhi. reflexivity.
    + rewrite lookup_app_r
        by (rewrite length_fmap, length_zip_with; lia).
      rewrite length_fmap, length_zip_with, Hlow, Hhigh.
      replace (Z.to_nat (n / 2) + i
               - Z.to_nat (n / 2) `min` Z.to_nat (n / 2))%nat with i by lia.
      rewrite list_lookup_fmap, lookup_zip_with, Hlo, Hhi. reflexivity.
Qed.

(** ** Layout of a kernel: left half, center sample, right half *)

Section Layout.

Context {A B : Type} (f : A → B) (left right : list A) (c : A).

Lemma layout_left (j : nat) :
  (j < length left)%nat →
  (f <$> (left ++ [c] ++ right)) !! j = f <$> left !! j.
Proof.
  intros Hj. rewrite list_lookup_fmap, lookup_app_l by assumption.
  reflexivity.
Qed.

Lemma layout_center :
  (f <$> (left ++ [c] ++ right)) !! length left = Some (f c).
Proof.
  rewrite list_lookup_fmap, lookup_app_r by lia.
  rewrite Nat.sub_diag. reflexivity.
Qed.

Lemma layout_right (i : nat) :
  (f <$> (left ++ [c] ++ right)) !! (length left + 1 + i)%nat
  = f <$> right !! i.
Proof.
  rewrite list_lookup_fmap, lookup_app_r by lia.
  replace (length left + 1 + i - length left)%nat with (S i) by lia.
  reflexivity.
Qed.

End Layout.

Lemma length_spec_left_cos (sr : R) (K : Z) (lo hi : R) :
  length (spec_left_cos sr K lo hi) = Z.to_nat (K / 2).
Proof. unfold spec_left_cos. rewrite length_fmap, length_seq. reflexivity. Qed.

Lemma length_spec_left_sin (sr : R) (K : Z) (lo hi : R) :
  length (spec_left_sin sr K lo hi) = Z.to_nat (K / 2).
Proof. unfold spec_left_sin. rewrite length_fmap, length_seq. reflexivity. Qed.

Lemma spec_left_cos_lookup (sr : R) (K : Z) (lo hi : R) (j : nat) :
  (j < Z.to_nat (K / 2))%nat →
  spec_left_cos sr K lo hi !! j
  = Some ((sin (hi * spec_n sr K j) - sin (lo * spec_n sr K j))
          / (spec_n sr K j / 2) * spec_w K j).
Proof.
  intros Hj. unfold spec_left_cos.
  rewrite list_lookup_fmap, lookup_seq_lt by assumption. reflexivity.
Qed.

Lemma spec_left_sin_lookup (sr : R) (K : Z) (lo hi : R) (j : nat) :
  (j < Z.to_nat (K / 2))%nat →
  spec_left_sin sr K lo hi !! j
  = Some ((cos (lo * spec_n sr K j) - cos (hi * spec_n sr K j))
          / (spec_n sr K j / 2) * spec_w K j).
Proof.
  intros Hj. unfold spec_left_sin.
  rewrite list_lookup_fmap, lookup_seq_lt by assumption. reflexivity.
Qed.

(** The center sample of a generated kernel, whatever the values. *)
Lemma kernel_cos_center (self : SincParamFB) (lo hi : float) :
  length (window_ self) = length (n_ self) →
  kernel_cos self lo hi !! length (n_ self)
  = Some (fdiv (fmul (Fin 2) (fsub hi lo)) (fmul (Fin 2) (fsub hi lo))).
Proof.
  intros Hw. unfold kernel_cos.
  rewrite <- (length_left_cos self lo hi Hw) at 1.
  rewrite <- app_assoc.
  apply (layout_center (λ x, fdiv x (fmul (Fin 2) (fsub hi lo)))).
Qed.

Lemma kernel_sin_center (self : SincParamFB) (lo hi : float) :
  length (window_ self) = length (n_ self) →
  kernel_sin self lo hi !! length (n_ self)
  = Some (fdiv (Fin 0) (fmul (Fin 2) (fsub hi lo))).
Proof.
  intros Hw. unfold kernel_sin.
  rewrite <- (length_left_sin self lo hi Hw) at 1.
  rewrite <- app_assoc.
  apply (layout_center (λ x, fdiv x (fmul (Fin 2) (fsub hi lo)))).
Qed.

Lemma init_buffers (n k st : Z) (mode : string) (sr ml mb : R)
    (self0 : SincParamFB) :
  (0 < k)%Z → (k mod 2 = 1)%Z → sr ≠ 0 →
  snd (__init__ n k st mode sr ml mb) = Ok self0 →
  n_ self0 = (λ j, Fin (spec_n sr k j)) <$> seq 0 (Z.to_nat (k / 2))
  ∧ window_ self0 = (λ j, Fin (spec_w k j)) <$> seq 0 (Z.to_nat (k / 2)).
Proof.
  intros Hk Hodd Hsr Hself0.
  destruct (init_fields _ _ _ _ _ _ _ _ Hself0)
    as (_ & _ & _ & _ & _ & Hw & Hn).
  rewrite Hodd in Hw, Hn. simpl in Hw, Hn.
  rewrite Hn, Hw. split; [apply n_real | apply window_real]; assumption.
Qed.

(** ** The generated kernels *)

(** C1: for an odd [kernel_size] (in particular one that is at least 3),
    a nonzero sample rate and real-valued parameters, generation succeeds,
    and for every filter [i] whose effective band [high - low] is nonzero,
    kernel [i] (cos-type) and kernel [n_filters // 2 + i] (sin-type) are a
    sequence of [kernel_size] samples divided, all of them, by [2 * band];
    before that division the center sample is [2 * band] for the cos-type
    and [0] for the sin-type kernel, and sample [j] of the left half,
    [j < cutoff], is [(sin (high n_j) - sin (low n_j)) / (n_j / 2) * w_j]
    for the cos-type and [(cos (low n_j) - cos (high n_j)) / (n_j / 2) * w_j]
    for the sin-type kernel, with [n_j = 2 pi (j - cutoff) / sample_rate]
    and [w_j = 0.54 - 0.46 cos (2 pi j / (kernel_size - 1))]. *)
Theorem left_half_formula (n k st : Z) (mode : string) (sr ml mb : R) :
  (0 ≤ n)%Z → (0 < k)%Z → (k mod 2 = 1)%Z → sr ≠ 0 →
  ∃ self0,
    snd (__init__ n k st mode sr ml mb) = Ok self0
    ∧ ∀ ls bs : list R,
        length ls = Z.to_nat (n / 2) → length bs = Z.to_nat (n / 2) →
        ∃ bank,
          filters (update self0 (Fin <$> ls) (Fin <$> bs)) = Ok bank
          ∧ ∀ (i : nat) (l b : R), ls !! i = Some l → bs !! i = Some b →
              let low := ml + Rabs l in
              let high := Rmin (Rmax (low + mb + Rabs b) ml) (sr / 2) in
              let band := high - low in
              band ≠ 0 →
              ∃ cos_raw sin_raw : list R,
                bank !! i
                = Some [Fin <$> ((λ x, x / (2 * band)) <$> cos_raw)]
                ∧ bank !! (Z.to_nat (n / 2) + i)%nat
                  = Some [Fin <$> ((λ x, x / (2 * band)) <$> sin_raw)]
                ∧ Z.of_nat (length cos_raw) = k
                ∧ Z.of_nat (length sin_raw) = k
                ∧ cos_raw !! Z.to_nat (k / 2) = Some (2 * band)
                ∧ sin_raw !! Z.to_nat (k / 2) = Some 0
                ∧ ∀ j : nat, (Z.of_nat j < k / 2)%Z →
                    let n_j := 2 * PI * IZR (Z.of_nat j - k / 2) / sr in
                    let w_j :=
                      0.54 - 0.46 * cos (2 * PI * IZR (Z.of_nat j)
                                         / IZR (k - 1)) in
                    cos_raw !! j
                    = Some ((sin (high * n_j) - sin (low * n_j))
                            / (n_j / 2) * w_j)
                    ∧ sin_raw !! j
                      = Some ((cos (low * n_j) - cos (high * n_j))
                              / (n_j / 2) * w_j)
                    ∧ (Fin <$> ((λ x, x / (2 * band)) <$> cos_raw)) !! j
                      = Some (Fin ((sin (high * n_j) - sin (low * n_j))
                                   / (n_j / 2) * w_j / (2 * band)))
                    ∧ (Fin <$> ((λ x, x / (2 * band)) <$> sin_raw)) !! j
                      = Some (Fin ((cos (low * n_j) - cos (high * n_j))
                                   / (n_j / 2) * w_j / (2 * band))).
Proof.
  intros Hn Hk Hodd Hsr.
  assert (Hn' : (0 ≤ n / 2)%Z) by (apply Z.div_pos; lia).
  destruct (init_succeeds n k st mode sr ml mb) as [self0 Hself0];
    [lia | lia |].
  exists self0. split; [assumption |]. intros ls bs Hls Hbs.
  destruct (generated_bank _ _ _ _ _ _ _ _ ls bs Hn Hk Hself0 Hls Hbs)
    as (bank & Hbank & _ & Hrows).
  exists bank. split; [assumption |].
  intros i l b Hl Hb low high band Hband.
  destruct (Hrows i l b Hl Hb) as [Hcos Hsin].
  destruct (init_buffers _ _ _ _ _ _ _ _ Hk Hodd Hsr Hself0) as [Hbn Hbw].
  rewrite (kernel_cos_real self0 sr k Hsr Hbn Hbw) in Hcos by exact Hband.
  rewrite (kernel_sin_real self0 sr k Hsr Hbn Hbw) in Hsin by exact Hband.
  pose proof (Z.div_mod k 2 ltac:(lia)) as Hdm.
  exists (spec_left_cos sr k low high ++ [2 * band]
          ++ reverse (spec_left_cos sr k low high)),
    (spec_left_sin sr k low high ++ [0]
     ++ (Ropp <$> reverse (spec_left_sin sr k low high))).
  split; [exact Hcos |]. split; [exact Hsin |].
  split; [| split; [| split; [| split]]].
  - rewrite !length_app, length_reverse, length_spec_left_cos. simpl. lia.
  - rewrite !length_app, length_fmap, length_reverse, length_spec_left_sin.
    simpl. lia.
  - rewrite <- (length_spec_left_cos sr k low high) at 1.
    apply list_lookup_middle. reflexivity.
  - rewrite <- (length_spec_left_sin sr k low high) at 1.
    apply list_lookup_middle. reflexivity.
  - intros j Hj n_j w_j.
    assert (Hc : (spec_left_cos sr k low high ++ [2 * band]
                  ++ reverse (spec_left_cos sr k low high)) !! j
                 = Some ((sin (high * n_j) - sin (low * n_j))
                         / (n_j / 2) * w_j)).
    { rewrite lookup_app_l by (rewrite length_spec_left_cos; lia).
      apply spec_left_cos_lookup. lia. }
    assert (Hs : (spec_left_sin sr k low high ++ [0]
                  ++ (Ropp <$> reverse (spec_left_sin sr k low high))) !! j
                 = Some ((cos (low * n_j) - cos (high * n_j))
                         / (n_j / 2) * w_j)).
    { rewrite lookup_app_l by (rewrite length_spec_left_sin; lia).
      apply spec_left_sin_lookup. lia. }
    repeat split; try assumption.
    + rewrite !list_lookup_fmap, Hc. reflexivity.
    + rewrite !list_lookup_fmap, Hs. reflexivity.
Qed.

Lemma left_half_formula_witness :
  ∃ self0,
    snd (__init__ 4 5 1 "encoder" 16000 50 50) = Ok self0
    ∧ ∃ bank,
        filters (update self0 [Fin 100; Fin (-300)] [Fin 200; Fin 10])
        = Ok bank
        ∧ ∃ cos_raw sin_raw : list R,
            bank !! 1%nat
            = Some [Fin <$> ((λ x, x / (2 * (410 - 350))) <$> cos_raw)]
            ∧ bank !! 3%nat
              = Some [Fin <$> ((λ x, x / (2 * (410 - 350))) <$> sin_raw)]
            ∧ cos_raw !! 2%nat = Some (2 * (410 - 350))
            ∧ sin_raw !! 2%nat = Some 0
            ∧ cos_raw !! 1%nat
              = Some ((sin (410 * (2 * PI * IZR (1 - 2) / 16000))
                       - sin (350 * (2 * PI * IZR (1 - 2) / 16000)))
                      / (2 * PI * IZR (1 - 2) / 16000 / 2)
                      * (0.54 - 0.46 * cos (2 * PI * IZR 1 / IZR 4))).
Proof.
  destruct (left_half_formula 4 5 1 "encoder" 16000 50 50)
    as (self0 & Hself0 & Hgen);
    [lia | lia | reflexivity | lra |].
  exists self0. split; [assumption |].
  destruct (Hgen [100; -300] [200; 10] eq_refl eq_refl)
    as (bank & Hbank & Hrows).
  exists bank. split; [assumption |].
  assert (Hlow : 50 + Rabs (-300) = 350) by real_cases.
  assert (Hhigh : Rmin (Rmax (50 + Rabs (-300) + 50 + Rabs 10) 50) (16000 / 2)
                  = 410) by real_cases.
  specialize (Hrows 1%nat (-300) 10 eq_refl eq_refl).
  cbv zeta in Hrows. rewrite Hhigh, Hlow in Hrows.
  destruct Hrows as (cos_raw & sin_raw & H1 & H2 & _ & _ & H5 & H6 & Hleft);
    [lra |].
  exists cos_raw, sin_raw.
  destruct (Hleft 1%nat ltac:(by vm_compute)) as (H7 & _).
  repeat split; assumption.
Defined.

(** Mirror images in the specification's kernels. *)
Lemma spec_kernel_cos_mirror (sr : R) (K : Z) (lo hi : R) (i : nat) :
  (i < Z.to_nat (K / 2))%nat →
  ∃ x : R,
    spec_kernel_cos sr K lo hi !! (Z.to_nat (K / 2) - 1 - i)%nat = Some x
    ∧ spec_kernel_cos sr K lo hi !! (Z.to_nat (K / 2) + 1 + i)%nat = Some x.
Proof.
  intros Hi. unfold spec_kernel_cos.
  pose proof (length_spec_left_cos sr K lo hi) as Hlen.
  set (left := spec_left_cos sr K lo hi) in *.
  destruct (lookup_lt_is_Some_2 left (Z.to_nat (K / 2) - 1 - i)) as [x Hx];
    [lia |].
  exists (x / (2 * (hi - lo))). split.
  - rewrite layout_left by lia. rewrite Hx. reflexivity.
  - rewrite <- Hlen at 1. rewrite layout_right.
    rewrite reverse_lookup by lia.
    replace (length left - S i)%nat with (Z.to_nat (K / 2) - 1 - i)%nat by lia.
    rewrite Hx. reflexivity.
Qed.

Lemma spec_kernel_sin_mirror (sr : R) (K : Z) (lo hi : R) (i : nat) :
  (i < Z.to_nat (K / 2))%nat →
  ∃ y : R,
    spec_kernel_sin sr K lo hi !! (Z.to_nat (K / 2) - 1 - i)%nat = Some y
    ∧ spec_kernel_sin sr K lo hi !! (Z.to_nat (K / 2) + 1 + i)%nat
      = Some (- y).
Proof.
  intros Hi. unfold spec_kernel_sin.
  pose proof (length_spec_left_sin sr K lo hi) as Hlen.
  set (left := spec_left_sin sr K lo hi) in *.
  destruct (lookup_lt_is_Some_2 left (Z.to_nat (K / 2) - 1 - i)) as [y Hy];
    [lia |].
  exists (y / (2 * (hi - lo))). split.
  - rewrite layout_left by lia. rewrite Hy. reflexivity.
  - rewrite <- Hlen at 1. rewrite layout_right.
    rewrite list_lookup_fmap, reverse_lookup by lia.
    replace (length left - S i)%nat with (Z.to_nat (K / 2) - 1 - i)%nat by lia.
    rewrite Hy. simpl. f_equal. unfold Rdiv. ring.
Qed.

Lemma spec_kernel_sin_center (sr : R) (K : Z) (lo hi : R) :
  spec_kernel_sin sr K lo hi !! Z.to_nat (K / 2) = Some 0.
Proof.
  unfold spec_kernel_sin.
  rewrite <- (length_spec_left_sin sr K lo hi) at 1.
  rewrite layout_center. f_equal. unfold Rdiv. ring.
Qed.

(** C3: for an odd [kernel_size], a nonzero sample rate and real-valued
    parameters, every kernel of the first half of the bank whose band is
    nonzero is mirror-symmetric about the center index [cutoff], sample
    [cutoff - 1 - i] being equal to sample [cutoff + 1 + i]; the matching
    kernel of the second half is antisymmetric, sample [cutoff + 1 + i]
    being the opposite of sample [cutoff - 1 - i], and its center sample
    is 0.  All these samples are finite, so that equality of the values
    is equality of the floating-point numbers. *)
Theorem kernel_symmetry (n k st : Z) (mode : string) (sr ml mb : R) :
  (0 ≤ n)%Z → (0 < k)%Z → (k mod 2 = 1)%Z → sr ≠ 0 →
  ∃ self0,
    snd (__init__ n k st mode sr ml mb) = Ok self0
    ∧ ∀ ls bs : list R,
        length ls = Z.to_nat (n / 2) → length bs = Z.to_nat (n / 2) →
        ∃ bank,
          filters (update self0 (Fin <$> ls) (Fin <$> bs)) = Ok bank
          ∧ ∀ (f : nat) (l b : R), ls !! f = Some l → bs !! f = Some b →
              let low := ml + Rabs l in
              let high := Rmin (Rmax (low + mb + Rabs b) ml) (sr / 2) in
              high - low ≠ 0 →
              ∃ cos_kernel sin_kernel : list float,
                bank !! f = Some [cos_kernel]
                ∧ bank !! (Z.to_nat (n / 2) + f)%nat = Some [sin_kernel]
                ∧ sin_kernel !! Z.to_nat (cutoff self0) = Some (Fin 0)
                ∧ ∀ i : nat, (Z.of_nat i < cutoff self0)%Z →
                    ∃ x y : R,
                      cos_kernel !! (Z.to_nat (cutoff self0) - 1 - i)%nat
                      = Some (Fin x)
                      ∧ cos_kernel !! (Z.to_nat (cutoff self0) + 1 + i)%nat
                        = Some (Fin x)
                      ∧ sin_kernel !! (Z.to_nat (cutoff self0) - 1 - i)%nat
                        = Some (Fin y)
                      ∧ sin_kernel !! (Z.to_nat (cutoff self0) + 1 + i)%nat
                        = Some (Fin (- y)).
Proof.
  intros Hn Hk Hodd Hsr.
  assert (Hn' : (0 ≤ n / 2)%Z) by (apply Z.div_pos; lia).
  destruct (init_succeeds n k st mode sr ml mb) as [self0 Hself0];
    [lia | lia |].
  exists self0. split; [assumption |]. intros ls bs Hls Hbs.
  destruct (generated_bank _ _ _ _ _ _ _ _ ls bs Hn Hk Hself0 Hls Hbs)
    as (bank & Hbank & _ & Hrows).
  exists bank. split; [assumption |].
  intros f l b Hl Hb low high Hband.
  destruct (Hrows f l b Hl Hb) as [Hcos Hsin].
  destruct (init_buffers _ _ _ _ _ _ _ _ Hk Hodd Hsr Hself0) as [Hbn Hbw].
  rewrite (kernel_cos_real self0 sr k Hsr Hbn Hbw) in Hcos by exact Hband.
  rewrite (kernel_sin_real self0 sr k Hsr Hbn Hbw) in Hsin by exact Hband.
  assert (Hcut : cutoff self0 = (k / 2)%Z).
  { destruct (kernel_size_cutoff _ _ _ _ _ _ _ _ Hself0) as [HK ->].
    rewrite HK, Hodd. reflexivity. }
  rewrite Hcut.
  eexists _, _. split; [exact Hcos |]. split; [exact Hsin |]. split.
  - rewrite list_lookup_fmap, spec_kernel_sin_center. reflexivity.
  - intros i Hi.
    destruct (spec_kernel_cos_mirror sr k (spec_low ml l)
                (spec_high sr ml mb l b) i) as (x & Hx1 & Hx2);
      [lia |].
    destruct (spec_kernel_sin_mirror sr k (spec_low ml l)
                (spec_high sr ml mb l b) i) as (y & Hy1 & Hy2);
      [lia |].
    exists x, y. rewrite !list_lookup_fmap, Hx1, Hx2, Hy1, Hy2.
    repeat split; reflexivity.
Qed.

Lemma kernel_symmetry_witness :
  ∃ self0,
    snd (__init__ 4 5 1 "encoder" 16000 50 50) = Ok self0
    ∧ ∃ bank (cos_kernel sin_kernel : list float),
        filters (update self0 [Fin 100; Fin (-300)] [Fin 200; Fin 10])
        = Ok bank
        ∧ bank !! 1%nat = Some [cos_kernel]
        ∧ bank !! 3%nat = Some [sin_kernel]
        ∧ sin_kernel !! 2%nat = Some (Fin 0)
        ∧ ∃ x y : R,
            cos_kernel !! 1%nat = Some (Fin x)
            ∧ cos_kernel !! 3%nat = Some (Fin x)
            ∧ sin_kernel !! 1%nat = Some (Fin y)
            ∧ sin_kernel !! 3%nat = Some (Fin (- y)).
Proof.
  destruct (kernel_symmetry 4 5 1 "encoder" 16000 50 50)
    as (self0 & Hself0 & Hgen);
    [lia | lia | reflexivity | lra |].
  exists self0. split; [assumption |].
  destruct (Hgen [100; -300] [200; 10] eq_refl eq_refl)
    as (bank & Hbank & Hrows).
  destruct (Hrows 1%nat (-300) 10 eq_refl eq_refl)
    as (cos_kernel & sin_kernel & H1 & H2 & H3 & Hmirror);
    [real_cases |].
  destruct (kernel_size_cutoff _ _ _ _ _ _ _ _ Hself0) as [HK Hcut].
  rewrite HK in Hcut. rewrite Hcut in H3, Hmirror.
  destruct (Hmirror 0%nat ltac:(by vm_compute)) as (x & y & Hx).
  exists bank, cos_kernel, sin_kernel.
  repeat (split; [assumption |]). exists x, y. exact Hx.
Defined.

(** ** The degenerate kernel of one sample *)

(** C10: with [kernel_size = 1] and a positive even [n_filters] the
    constructor succeeds with [cutoff = 0] and empty buffers [window_] and
    [n_], so that the vector of divisors [n_ / 2] is empty and both left
    blocks have no column; generation returns a bank of shape
    [(n_filters, 1, 1)], in which, for every filter [f] with real-valued
    parameters and a nonzero band, the one sample of kernel [f] is 1 and
    the one sample of kernel [n_filters // 2 + f] is 0. *)
Theorem single_sample_kernels (n st : Z) (mode : string) (sr ml mb : R) :
  (0 < n)%Z → (n mod 2 = 0)%Z →
  ∃ self0,
    snd (__init__ n 1 st mode sr ml mb) = Ok self0
    ∧ cutoff self0 = 0%Z
    ∧ window_ self0 = [] ∧ n_ self0 = [] ∧ half_n self0 = []
    ∧ (∀ lo hi : float,
         left_cos self0 lo hi = [] ∧ left_sin self0 lo hi = [])
    ∧ ∀ ls bs : list R,
        length ls = Z.to_nat (n / 2) → length bs = Z.to_nat (n / 2) →
        ∃ bank,
          filters (update self0 (Fin <$> ls) (Fin <$> bs)) = Ok bank
          ∧ shape3 bank n 1 1
          ∧ ∀ (f : nat) (l b : R), ls !! f = Some l → bs !! f = Some b →
              let low := ml + Rabs l in
              let high := Rmin (Rmax (low + mb + Rabs b) ml) (sr / 2) in
              high - low ≠ 0 →
              bank !! f = Some [[Fin 1]]
              ∧ bank !! (Z.to_nat (n / 2) + f)%nat = Some [[Fin 0]].
Proof.
  intros Hn Heven.
  assert (Hn' : (0 ≤ n / 2)%Z) by (apply Z.div_pos; lia).
  pose proof (Z.div_mod n 2 ltac:(lia)) as Hdm.
  destruct (init_succeeds n 1 st mode sr ml mb) as [self0 Hself0];
    [lia | lia |].
  exists self0. split; [assumption |].
  destruct (init_fields _ _ _ _ _ _ _ _ Hself0)
    as (_ & HK & _ & _ & _ & Hw & Hn0).
  destruct (kernel_size_cutoff _ _ _ _ _ _ _ _ Hself0) as [_ Hcut].
  rewrite HK in Hcut. simpl in HK, Hcut, Hw, Hn0.
  assert (Hhalf : half_n self0 = []) by (unfold half_n; rewrite Hn0; done).
  assert (Hleft : ∀ lo hi : float,
             left_cos self0 lo hi = [] ∧ left_sin self0 lo hi = []).
  { intros lo hi. unfold left_cos, left_sin. rewrite Hn0. done. }
  do 5 (split; [assumption |]).
  intros ls bs Hls Hbs.
  destruct (generated_bank n 1 st mode sr ml mb self0 ls bs ltac:(lia)
              ltac:(lia) Hself0 Hls Hbs) as (bank & Hbank & Hshape & Hrows).
  assert (Hkernels : ∀ (f : nat) (l b : R),
             ls !! f = Some l → bs !! f = Some b →
             spec_high sr ml mb l b - spec_low ml l ≠ 0 →
             bank !! f = Some [[Fin 1]]
             ∧ bank !! (Z.to_nat (n / 2) + f)%nat = Some [[Fin 0]]).
  { intros f l b Hl Hb Hband.
    destruct (Hrows f l b Hl Hb) as [Hcos Hsin].
    rewrite Hcos, Hsin. unfold kernel_cos, kernel_sin.
    destruct (Hleft (Fin (spec_low ml l)) (Fin (spec_high sr ml mb l b)))
      as [-> ->].
    simpl.
    destruct (Req_dec_T (2 * (spec_high sr ml mb l b + - spec_low ml l)) 0)
      as [H | _]; [lra |].
    split; do 4 f_equal; field; lra. }
  exists bank. split; [assumption |]. split; [| exact Hkernels].
  rewrite HK in Hshape.
  replace (n / 2 + n / 2)%Z with n in Hshape by lia. exact Hshape.
Qed.

Lemma single_sample_kernels_witness :
  ∃ self0,
    snd (__init__ 4 1 1 "encoder" 16000 50 50) = Ok self0
    ∧ window_ self0 = [] ∧ n_ self0 = []
    ∧ ∃ bank,
        filters (update self0 [Fin 100; Fin (-300)] [Fin 200; Fin 10])
        = Ok bank
        ∧ shape3 bank 4 1 1
        ∧ bank !! 1%nat = Some [[Fin 1]]
        ∧ bank !! 3%nat = Some [[Fin 0]].
Proof.
  destruct (single_sample_kernels 4 1 "encoder" 16000 50 50)
    as (self0 & Hself0 & _ & Hw & Hn & _ & _ & Hgen);
    [lia | reflexivity |].
  exists self0. do 3 (split; [assumption |]).
  destruct (Hgen [100; -300] [200; 10] eq_refl eq_refl)
    as (bank & Hbank & Hshape & Hrows).
  exists bank. do 2 (split; [assumption |]).
  apply (Hrows 1%nat (-300) 10 eq_refl eq_refl). real_cases.
Defined.

(** ** The shape of the bank *)

Lemma update_same (self : SincParamFB) :
  update self (low_hz_ self) (band_hz_ self) = self.
Proof. destruct self. reflexivity. Qed.

(** C4: for a positive even [n_filters] and a positive [kernel_size] the
    constructor succeeds and stores an odd kernel size; then, for the
    initial parameters and after any update of the parameters that keeps
    their shape, both calls of [make_filters] succeed with [n_filters // 2]
    kernels each, and [filters] returns the cos-type kernels followed by
    the sin-type kernels, a tensor of shape
    [(n_filters, 1, kernel_size)]. *)
Theorem bank_shape (n k st : Z) (mode : string) (sr ml mb : R) :
  (0 < n)%Z → (n mod 2 = 0)%Z → (0 < k)%Z →
  ∃ self0,
    snd (__init__ n k st mode sr ml mb) = Ok self0
    ∧ (kernel_size self0 mod 2 = 1)%Z
    ∧ (∃ bank0, filters self0 = Ok bank0
                ∧ shape3 bank0 n 1 (kernel_size self0))
    ∧ ∀ low_hz band_hz : list float,
        length low_hz = Z.to_nat (n / 2) →
        length band_hz = Z.to_nat (n / 2) →
        let self := update self0 low_hz band_hz in
        ∃ cos_filters sin_filters,
          make_filters self (effective_low self) (effective_high self) "cos"
          = Ok cos_filters
          ∧ make_filters self (effective_low self) (effective_high self)
              "sin"
            = Ok sin_filters
          ∧ filters self = Ok (cos_filters ++ sin_filters)
          ∧ shape3 cos_filters (n / 2) 1 (kernel_size self0)
          ∧ shape3 sin_filters (n / 2) 1 (kernel_size self0)
          ∧ shape3 (cos_filters ++ sin_filters) n 1 (kernel_size self0).
Proof.
  intros Hn Heven Hk.
  assert (Hn' : (0 ≤ n / 2)%Z) by (apply Z.div_pos; lia).
  pose proof (Z.div_mod n 2 ltac:(lia)) as Hdm.
  destruct (init_succeeds n k st mode sr ml mb) as [self0 Hself0];
    [lia | lia |].
  pose proof (init_well_shaped n k st mode sr ml mb self0 ltac:(lia) Hk
                Hself0) as Hws0.
  destruct (init_fields _ _ _ _ _ _ _ _ Hself0) as (Hnf & HK & _).
  assert (Hupd : ∀ low_hz band_hz : list float,
             length low_hz = Z.to_nat (n / 2) →
             length band_hz = Z.to_nat (n / 2) →
             let self := update self0 low_hz band_hz in
             ∃ cos_filters sin_filters,
               make_filters self (effective_low self) (effective_high self)
                 "cos" = Ok cos_filters
               ∧ make_filters self (effective_low self)
                   (effective_high self) "sin" = Ok sin_filters
               ∧ filters self = Ok (cos_filters ++ sin_filters)
               ∧ shape3 cos_filters (n / 2) 1 (kernel_size self0)
               ∧ shape3 sin_filters (n / 2) 1 (kernel_size self0)
               ∧ shape3 (cos_filters ++ sin_filters) n 1 (kernel_size self0)).
  { intros low_hz band_hz Hlow Hband self.
    assert (Hws : well_shaped self).
    { apply update_well_shaped; [assumption | |];
        [rewrite (ws_low _ Hws0) | rewrite (ws_band _ Hws0)]; congruence. }
    destruct (filters_bank self Hws) as (Hcos & Hsin & Hbank).
    destruct (shape3_kernels self (effective_low self) (effective_high self)
                Hws) as [Hc Hs].
    { rewrite length_effective_low. simpl. congruence. }
    { rewrite length_effective_high; simpl; congruence. }
    simpl in Hc, Hs. rewrite Hnf in Hc, Hs.
    eexists _, _. split; [exact Hcos |]. split; [exact Hsin |].
    split; [exact Hbank |]. split; [exact Hc |]. split; [exact Hs |].
    pose proof (shape3_app _ _ _ _ _ _ Hc Hs) as Hsum.
    replace (n / 2 + n / 2)%Z with n in Hsum by lia. exact Hsum. }
  exists self0. split; [assumption |].
  split; [rewrite HK; apply forced_odd |]. split; [| exact Hupd].
  destruct (Hupd (low_hz_ self0) (band_hz_ self0))
    as (c & s & _ & _ & Hbank & _ & _ & Hshape).
  { rewrite (ws_low _ Hws0). congruence. }
  { rewrite (ws_band _ Hws0). congruence. }
  rewrite update_same in Hbank. eauto.
Qed.

Lemma bank_shape_witness :
  ∃ self0,
    snd (__init__ 4 4 1 "encoder" 16000 50 50) = Ok self0
    ∧ ∃ bank, filters (update self0 [Fin 100; NaN] [PInf; Fin 10]) = Ok bank
              ∧ shape3 bank 4 1 5.
Proof.
  destruct (bank_shape 4 4 1 "encoder" 16000 50 50)
    as (self0 & Hself0 & _ & _ & Hgen);
    [lia | reflexivity | lia |].
  exists self0. split; [assumption |].
  destruct (Hgen [Fin 100; NaN] [PInf; Fin 10] eq_refl eq_refl)
    as (c & s & _ & _ & Hbank & _ & _ & Hshape).
  destruct (kernel_size_cutoff _ _ _ _ _ _ _ _ Hself0) as [HK _].
  rewrite HK in Hshape. eauto.
Defined.

(** ** The filter type tag *)

Lemma infer_size_Error (shape : list Z) (numel : Z) (e : exn) :
  torch.infer_size shape numel = Error e → e = RuntimeError.
Proof.
  unfold torch.infer_size.
  repeat match goal with
    | |- context [if ?c then _ else _] => destruct c
    end; congruence.
Qed.

Lemma view3_Error (t : list (list float)) (d0 d1 d2 : Z) (e : exn) :
  torch.view3 t d0 d1 d2 = Error e → e = RuntimeError.
Proof.
  unfold torch.view3.
  destruct (torch.infer_size [d0; d1; d2] (Z.of_nat (length (concat t))))
    as [shape | e'] eqn:Hshape; simpl.
  - destruct shape as [| s0 [| s1 [| s2 [| s3 shape]]]]; congruence.
  - apply infer_size_Error in Hshape. congruence.
Qed.

Lemma make_filters_cos_sin_Error (self : SincParamFB) (low high : list float)
    (type : string) (e : exn) :
  type = "cos"%string ∨ type = "sin"%string →
  make_filters self low high type = Error e → e = RuntimeError.
Proof.
  intros [-> | ->]; unfold make_filters, band_pass_blocks; simpl;
    apply view3_Error.
Qed.

(** C8: [make_filters] raises [ValueError] for every tag other than
    ['cos'] and ['sin']; [filters] calls it with these two tags only, and
    so never ends in a [ValueError]. *)
Theorem invalid_filter_type (self : SincParamFB) (low high : list float)
    (type : string) :
  type ≠ "cos"%string → type ≠ "sin"%string →
  make_filters self low high type
  = Error (ValueError ("Invalid filter type " ++ type))
  ∧ filters self
    = (let* cos_filters :=
         make_filters self (effective_low self) (effective_high self) "cos" in
       let* sin_filters :=
         make_filters self (effective_low self) (effective_high self) "sin" in
       Ok (cos_filters ++ sin_filters))
  ∧ ∀ msg : string, filters self ≠ Error (ValueError msg).
Proof.
  intros Hcos Hsin. split; [| split].
  - unfold make_filters, band_pass_blocks.
    rewrite (proj2 (String.eqb_neq type "cos") Hcos).
    rewrite (proj2 (String.eqb_neq type "sin") Hsin).
    reflexivity.
  - reflexivity.
  - intros msg. unfold filters.
    destruct (make_filters self (effective_low self) (effective_high self)
                "cos") as [c | e] eqn:Hc; simpl.
    + destruct (make_filters self (effective_low self) (effective_high self)
                  "sin") as [s | e] eqn:Hs; simpl; [discriminate |].
      apply make_filters_cos_sin_Error in Hs; [| auto]. congruence.
    + apply make_filters_cos_sin_Error in Hc; [| auto]. congruence.
Qed.

Lemma invalid_filter_type_witness :
  ∃ self0,
    snd (__init__ 4 5 1 "encoder" 16000 50 50) = Ok self0
    ∧ make_filters self0 (effective_low self0) (effective_high self0) "tan"
      = Error (ValueError "Invalid filter type tan")
    ∧ ∀ msg : string, filters self0 ≠ Error (ValueError msg).
Proof.
  destruct (init_succeeds 4 5 1 "encoder" 16000 50 50) as [self0 Hself0];
    [by vm_compute | by vm_compute |].
  exists self0. split; [assumption |].
  destruct (invalid_filter_type self0 (effective_low self0)
              (effective_high self0) "tan") as (Herr & _ & Hno);
    [discriminate | discriminate |].
  split; assumption.
Defined.

(** ** Single precision *)

Lemma two_pow_pos (e : Z) : 0 < powerRZ 2 e.
Proof. apply powerRZ_lt; lra. Qed.

Lemma two_pow_add (a b : Z) : powerRZ 2 (a + b) = powerRZ 2 a * powerRZ 2 b.
Proof. apply powerRZ_add; lra. Qed.

Lemma two_pow_IZR (k : Z) : (0 ≤ k)%Z → powerRZ 2 k = IZR (2 ^ k).
Proof.
  intros Hk. rewrite <- (Z2Nat.id k Hk) at 1.
  rewrite <- pow_powerRZ, pow_IZR, Z2Nat.id by done. done.
Qed.

Lemma two_pow_cancel (e : Z) : powerRZ 2 (- e) * powerRZ 2 e = 1.
Proof. rewrite <- two_pow_add. replace (- e + e)%Z with 0%Z by lia. done. Qed.

Lemma two_pow_le (a b : Z) : (a ≤ b)%Z → powerRZ 2 a <= powerRZ 2 b.
Proof.
  intros Hab. replace b with (a + (b - a))%Z by lia.
  rewrite two_pow_add, (two_pow_IZR (b - a)) by lia.
  assert (1 <= IZR (2 ^ (b - a))).
  { apply IZR_le. assert (0 < 2 ^ (b - a))%Z by (apply Z.pow_pos_nonneg; lia). lia. }
  pose proof (two_pow_pos a). nra.
Qed.

Lemma two_pow_lt (a b : Z) : (a < b)%Z → powerRZ 2 a < powerRZ 2 b.
Proof.
  intros Hab. replace b with (a + (b - a))%Z by lia.
  rewrite two_pow_add, (two_pow_IZR (b - a)) by lia.
  assert (2 <= IZR (2 ^ (b - a))).
  { apply IZR_le. replace (b - a)%Z with (1 + (b - a - 1))%Z by lia.
    rewrite Z.pow_add_r by lia.
    assert (0 < 2 ^ (b - a - 1))%Z by (apply Z.pow_pos_nonneg; lia). lia. }
  pose proof (two_pow_pos a). nra.
Qed.

Lemma two_pow_lt_inv (a b : Z) : powerRZ 2 a < powerRZ 2 b → (a < b)%Z.
Proof.
  intros H. destruct (Z_lt_le_dec a b) as [|Hle]; [done|].
  apply two_pow_le in Hle. lra.
Qed.

Lemma ln_2_pos : 0 < ln 2.
Proof. pose proof ln_lt_2. lra. Qed.

Lemma two_pow_exp (k : Z) : powerRZ 2 k = exp (IZR k * ln 2).
Proof. rewrite powerRZ_Rpower by lra. done. Qed.

Lemma mag_bounds (x : R) :
  x ≠ 0 → powerRZ 2 (mag x) <= Rabs x < powerRZ 2 (mag x + 1).
Proof.
  intros Hx. pose proof (Rabs_pos_lt x Hx) as Hpos.
  pose proof ln_2_pos as Hl.
  destruct (Zfloor_bound (ln (Rabs x) / ln 2)) as [H1 H2].
  fold (mag x) in H1, H2.
  assert (IZR (mag x) * ln 2 <= ln (Rabs x)) as H3.
  { apply (Rmult_le_compat_r (ln 2)) in H1; [|lra].
    unfold Rdiv in H1. rewrite Rmult_assoc, Rinv_l, Rmult_1_r in H1 by lra. done. }
  assert (ln (Rabs x) < IZR (mag x + 1) * ln 2) as H4.
  { rewrite plus_IZR. apply (Rmult_lt_compat_r (ln 2)) in H2; [|lra].
    unfold Rdiv in H2. rewrite Rmult_assoc, Rinv_l, Rmult_1_r in H2 by lra. done. }
  rewrite !two_pow_exp. pose proof (exp_ln (Rabs x) Hpos) as Hexp.
  split.
  - rewrite <- Hexp.
    destruct H3 as [H3|H3]; [left; by apply exp_increasing | right; by rewrite H3].
  - rewrite <- Hexp. by apply exp_increasing.
Qed.

Lemma mag_lt (x : R) (k : Z) : x ≠ 0 → Rabs x < powerRZ 2 k → (mag x < k)%Z.
Proof.
  intros Hx Hk. destruct (mag_bounds x Hx) as [H1 _].
  apply two_pow_lt_inv. lra.
Qed.

Lemma mag_ge (x : R) (k : Z) : x ≠ 0 → powerRZ 2 k <= Rabs x → (k ≤ mag x)%Z.
Proof.
  intros Hx Hk. destruct (mag_bounds x Hx) as [_ H2].
  assert (k < mag x + 1)%Z by (apply two_pow_lt_inv; lra). lia.
Qed.

Lemma mag_le (x y : R) : x ≠ 0 → Rabs x <= Rabs y → (mag x ≤ mag y)%Z.
Proof.
  intros Hx Hxy. assert (y ≠ 0) as Hy.
  { intros ->. rewrite Rabs_R0 in Hxy. pose proof (Rabs_pos_lt x Hx). lra. }
  apply mag_ge; [done|]. destruct (mag_bounds x Hx). lra.
Qed.

Lemma cexp_le (x y : R) : x ≠ 0 → Rabs x <= Rabs y → (cexp x ≤ cexp y)%Z.
Proof. intros Hx Hxy. pose proof (mag_le x y Hx Hxy). unfold cexp. lia. Qed.

Lemma rne_IZR (n : Z) : rne (IZR n) = n.
Proof.
  unfold rne. rewrite ZfloorZ.
  destruct (Rlt_dec _ _) as [|Hn]; [done|]. exfalso. apply Hn. lra.
Qed.

Lemma rne_bounds (y : R) : (Zfloor y ≤ rne y ≤ Zfloor y + 1)%Z.
Proof. unfold rne. repeat case_match; lia. Qed.

Lemma rne_le (a b : R) : a <= b → (rne a ≤ rne b)%Z.
Proof.
  intros Hab. pose proof (Zfloor_le a b Hab) as Hf.
  pose proof (rne_bounds a) as Ha. pose proof (rne_bounds b) as Hb.
  destruct (Z.eq_dec (Zfloor a) (Zfloor b)) as [Heq|Hne].
  - unfold rne. rewrite Heq. repeat case_match; try lia; lra.
  - assert (Zfloor a + 1 ≤ Zfloor b)%Z by lia. lia.
Qed.

Lemma round32_0 : round32 0 = 0.
Proof.
  unfold round32. rewrite Rmult_0_l. change 0 with (IZR 0) at 1.
  rewrite rne_IZR. lra.
Qed.

Lemma round32_le_grid (x : R) (n e : Z) :
  (cexp x ≤ e)%Z → x <= IZR n * powerRZ 2 e → round32 x <= IZR n * powerRZ 2 e.
Proof.
  intros He Hx. unfold round32.
  replace e with ((e - cexp x) + cexp x)%Z in Hx |- * by lia.
  rewrite two_pow_add, (two_pow_IZR (e - cexp x)), <- Rmult_assoc, <- mult_IZR in Hx |- * by lia.
  pose proof (two_pow_pos (cexp x)) as Hu.
  apply Rmult_le_compat_r; [lra|]. apply IZR_le.
  rewrite <- (rne_IZR (n * 2 ^ (e - cexp x))). apply rne_le.
  apply (Rmult_le_compat_r (powerRZ 2 (- cexp x))) in Hx;
    [|left; apply two_pow_pos].
  rewrite (Rmult_assoc (IZR _)), (Rmult_comm (powerRZ 2 (cexp x))),
    two_pow_cancel, Rmult_1_r in Hx. done.
Qed.

Lemma round32_ge_grid (x : R) (n e : Z) :
  (cexp x ≤ e)%Z → IZR n * powerRZ 2 e <= x → IZR n * powerRZ 2 e <= round32 x.
Proof.
  intros He Hx. unfold round32.
  replace e with ((e - cexp x) + cexp x)%Z in Hx |- * by lia.
  rewrite two_pow_add, (two_pow_IZR (e - cexp x)), <- Rmult_assoc, <- mult_IZR in Hx |- * by lia.
  pose proof (two_pow_pos (cexp x)) as Hu.
  apply Rmult_le_compat_r; [lra|]. apply IZR_le.
  rewrite <- (rne_IZR (n * 2 ^ (e - cexp x))) at 1. apply rne_le.
  apply (Rmult_le_compat_r (powerRZ 2 (- cexp x))) in Hx;
    [|left; apply two_pow_pos].
  rewrite (Rmult_assoc (IZR _)), (Rmult_comm (powerRZ 2 (cexp x))),
    two_pow_cancel, Rmult_1_r in Hx. done.
Qed.

Lemma round32_grid (n e : Z) :
  (cexp (IZR n * powerRZ 2 e) ≤ e)%Z →
  round32 (IZR n * powerRZ 2 e) = IZR n * powerRZ 2 e.
Proof.
  intros He. apply Rle_antisym.
  - apply round32_le_grid; [done|lra].
  - apply round32_ge_grid; [done|lra].
Qed.

Lemma round32_representable (x : R) : representable x → round32 x = x.
Proof.
  intros (m & e & -> & Hm & He).
  destruct (Z.eq_dec m 0%Z) as [->|Hm0].
  { rewrite Rmult_0_l. apply round32_0. }
  apply round32_grid.
  pose proof (two_pow_pos e) as Hu.
  assert (IZR m * powerRZ 2 e ≠ 0) as Hx.
  { apply Rmult_integral_contrapositive_currified; [|lra].
    intros H0. by apply eq_IZR_R0 in H0. }
  assert (mag (IZR m * powerRZ 2 e) < 24 + e)%Z.
  { apply mag_lt; [done|].
    rewrite Rabs_mult, (Rabs_pos_eq (powerRZ 2 e)), two_pow_add by lra.
    apply Rmult_lt_compat_r; [done|].
    rewrite <- abs_IZR, two_pow_IZR by lia. by apply IZR_lt. }
  unfold cexp. lia.
Qed.

Lemma mag_unique (x : R) (k : Z) :
  powerRZ 2 k <= Rabs x < powerRZ 2 (k + 1) → mag x = k.
Proof.
  intros [H1 H2]. assert (x ≠ 0) as Hx.
  { intros ->. rewrite Rabs_R0 in H1. pose proof (two_pow_pos k). lra. }
  pose proof (mag_ge x k Hx H1). pose proof (mag_lt x (k + 1) Hx H2). lia.
Qed.

Lemma round32_scaled_bound (x : R) :
  x ≠ 0 → Rabs (x * powerRZ 2 (- cexp x)) < IZR (2 ^ 24).
Proof.
  intros Hx. destruct (mag_bounds x Hx) as [_ H2].
  pose proof (two_pow_pos (- cexp x)) as Hu.
  rewrite Rabs_mult, (Rabs_pos_eq (powerRZ 2 _)) by lra.
  apply Rlt_le_trans with (powerRZ 2 (mag x + 1) * powerRZ 2 (- cexp x)).
  - by apply Rmult_lt_compat_r.
  - rewrite <- two_pow_add, <- two_pow_IZR by lia.
    apply two_pow_le. unfold cexp. lia.
Qed.

Lemma round32_in_format (x : R) : representable (round32 x).
Proof.
  destruct (Req_dec_T x 0) as [->|Hx].
  { rewrite round32_0. exists 0%Z, 0%Z. split; [simpl; lra|]. split; [done|lia]. }
  pose proof (round32_scaled_bound x Hx) as Hb.
  apply Rabs_def2 in Hb as [Hb1 Hb2].
  set (y := x * powerRZ 2 (- cexp x)) in *.
  assert (rne y ≤ 2 ^ 24)%Z as Hn1.
  { rewrite <- (rne_IZR (2 ^ 24)). apply rne_le. lra. }
  assert (- 2 ^ 24 ≤ rne y)%Z as Hn2.
  { rewrite <- (rne_IZR (- 2 ^ 24)). apply rne_le. rewrite opp_IZR. lra. }
  assert (-149 ≤ cexp x)%Z as Hc by (unfold cexp; lia).
  unfold round32. fold y.
  destruct (Z.eq_dec (rne y) (2 ^ 24)%Z) as [Heq|Hne1];
    [|destruct (Z.eq_dec (rne y) (- 2 ^ 24)%Z) as [Heq|Hne2]].
  - exists (2 ^ 23)%Z, (cexp x + 1)%Z. split; [|split; [done|lia]].
    rewrite Heq, two_pow_add. change (powerRZ 2 1) with (2 * 1).
    change (2 ^ 24)%Z with (2 * 2 ^ 23)%Z. rewrite mult_IZR. lra.
  - exists (- 2 ^ 23)%Z, (cexp x + 1)%Z. split; [|split; [done|lia]].
    rewrite Heq, two_pow_add. change (powerRZ 2 1) with (2 * 1).
    change (- 2 ^ 24)%Z with (2 * - 2 ^ 23)%Z. rewrite mult_IZR. lra.
  - exists (rne y), (cexp x). split; [done|]. split; [lia|done].
Qed.

Lemma round32_idempotent (x : R) : round32 (round32 x) = round32 x.
Proof. apply round32_representable, round32_in_format. Qed.

Lemma round32_nonneg (x : R) : 0 <= x → 0 <= round32 x.
Proof.
  intros Hx. pose proof (round32_ge_grid x 0 (cexp x)) as H.
  rewrite Rmult_0_l in H. apply H; [lia|done].
Qed.

Lemma round32_nonpos (x : R) : x <= 0 → round32 x <= 0.
Proof.
  intros Hx. pose proof (round32_le_grid x 0 (cexp x)) as H.
  rewrite Rmult_0_l in H. apply H; [lia|done].
Qed.

Lemma round32_same_cexp (x y : R) :
  cexp x = cexp y → x <= y → round32 x <= round32 y.
Proof.
  intros Hc Hxy. unfold round32. rewrite Hc.
  pose proof (two_pow_pos (cexp y)) as Hu.
  pose proof (two_pow_pos (- cexp y)) as Hv.
  apply Rmult_le_compat_r; [lra|]. apply IZR_le, rne_le.
  by apply Rmult_le_compat_r; [lra|].
Qed.

Lemma round32_le (x y : R) : x <= y → round32 x <= round32 y.
Proof.
  intros Hxy.
  destruct (Z.eq_dec (cexp x) (cexp y)) as [Hc|Hc];
    [by apply round32_same_cexp|].
  destruct (Rle_dec x 0) as [Hx0|Hx0]; [destruct (Rle_dec 0 y) as [Hy0|Hy0]|].
  - pose proof (round32_nonpos x Hx0). pose proof (round32_nonneg y Hy0). lra.
  - (* x <= y < 0 *)
    assert (y ≠ 0) as Hy by lra. assert (x ≠ 0) as Hx by lra.
    assert (Rabs y <= Rabs x) as Habs by (rewrite !Rabs_left by lra; lra).
    pose proof (cexp_le y x Hy Habs) as Hle.
    assert (cexp x = mag x - 23)%Z as Hcx by (unfold cexp in *; lia).
    assert (mag y + 1 ≤ mag x)%Z as Hm by (unfold cexp in *; lia).
    destruct (mag_bounds x Hx) as [Hx1 _]. destruct (mag_bounds y Hy) as [_ Hy2].
    rewrite Rabs_left in Hx1, Hy2 by lra.
    pose proof (two_pow_le _ _ Hm) as Hp.
    apply Rle_trans with (IZR (-1) * powerRZ 2 (mag x)).
    + apply round32_le_grid; [lia|lra].
    + apply round32_ge_grid; [unfold cexp in *; lia|lra].
  - (* 0 < x <= y *)
    assert (y ≠ 0) as Hy by lra. assert (x ≠ 0) as Hx by lra.
    assert (Rabs x <= Rabs y) as Habs by (rewrite !Rabs_pos_eq by lra; lra).
    pose proof (cexp_le x y Hx Habs) as Hle.
    assert (cexp y = mag y - 23)%Z as Hcy by (unfold cexp in *; lia).
    assert (mag x + 1 ≤ mag y)%Z as Hm by (unfold cexp in *; lia).
    destruct (mag_bounds x Hx) as [_ Hx2]. destruct (mag_bounds y Hy) as [Hy1 _].
    rewrite Rabs_pos_eq in Hx2, Hy1 by lra.
    pose proof (two_pow_le _ _ Hm) as Hp.
    apply Rle_trans with (IZR 1 * powerRZ 2 (mag y)).
    + apply round32_le_grid; [unfold cexp in *; lia|lra].
    + apply round32_ge_grid; [lia|lra].
Qed.

Lemma representable_Z (n : Z) : (Z.abs n < 2 ^ 24)%Z → representable (IZR n).
Proof.
  intros Hn. exists n, 0%Z. split; [simpl; lra|]. split; [done|lia].
Qed.

Lemma representable_grid (x : R) :
  representable x → ∃ k : Z, x = IZR k * powerRZ 2 (-149).
Proof.
  intros (m & e & -> & _ & He). exists (m * 2 ^ (e + 149))%Z.
  rewrite mult_IZR, <- two_pow_IZR, Rmult_assoc, <- two_pow_add by lia.
  do 2 f_equal. lia.
Qed.

Lemma round32_sub_pos (a b : R) :
  representable a → representable b → b < a → 0 < round32 (a - b).
Proof.
  intros [ka Ha]%representable_grid [kb Hb]%representable_grid Hab.
  pose proof (two_pow_pos (-149)) as Hu.
  assert (kb < ka)%Z as Hk.
  { apply lt_IZR. subst a b. nra. }
  assert (powerRZ 2 (-149) <= a - b) as Hd.
  { subst a b. assert (IZR kb + 1 <= IZR ka).
    { rewrite <- plus_IZR. apply IZR_le. lia. } nra. }
  apply round32_le in Hd.
  rewrite (round32_representable (powerRZ 2 (-149))) in Hd; [lra|].
  exists 1%Z, (-149)%Z. split; [lra|]. split; [done|lia].
Qed.

Lemma round32_sub_sign (a b : R) :
  representable a → representable b →
  (0 < round32 (a - b) ↔ b < a) ∧ (round32 (a - b) = 0 ↔ a = b)
  ∧ (round32 (a - b) < 0 ↔ a < b).
Proof.
  intros Ha Hb.
  assert (b < a → 0 < round32 (a - b)) as H1 by by apply round32_sub_pos.
  assert (a = b → round32 (a - b) = 0) as H2.
  { intros ->. rewrite Rminus_diag. apply round32_0. }
  assert (a <= b → round32 (a - b) <= 0) as H3.
  { intros H. apply round32_nonpos. lra. }
  assert (b <= a → 0 <= round32 (a - b)) as H4.
  { intros H. apply round32_nonneg. lra. }
  assert (a < b → round32 (a - b) < 0) as H5.
  { intros H. destruct (H3 ltac:(lra)) as [|H0]; [done|]. exfalso.
    assert (a - b <= - powerRZ 2 (-149)) as Hd.
    { destruct (representable_grid a Ha) as [ka Hka].
      destruct (representable_grid b Hb) as [kb Hkb].
      pose proof (two_pow_pos (-149)) as Hu.
      assert (ka < kb)%Z as Hk by (apply lt_IZR; subst a b; nra).
      assert (IZR ka + 1 <= IZR kb).
      { rewrite <- plus_IZR. apply IZR_le. lia. }
      subst a b. nra. }
    apply round32_le in Hd.
    rewrite (round32_representable (- powerRZ 2 (-149))) in Hd.
    - pose proof (two_pow_pos (-149)). lra.
    - exists (-1)%Z, (-149)%Z. split; [lra|]. split; [done|lia]. }
  destruct (Rtotal_order a b) as [?|[?|?]]; repeat split; intros; try lra;
    try (specialize (H1 ltac:(lra)); lra); try (specialize (H5 ltac:(lra)); lra).
Qed.

Lemma round32_near (x : R) (k n : Z) :
  powerRZ 2 k <= Rabs x < powerRZ 2 (k + 1) → (-126 ≤ k)%Z →
  IZR n <= x * powerRZ 2 (23 - k) < IZR n + 1 / 2 →
  round32 x = IZR n * powerRZ 2 (k - 23).
Proof.
  intros Hk Hn Hx. apply mag_unique in Hk.
  assert (cexp x = k - 23)%Z as Hc by (unfold cexp; lia).
  unfold round32. rewrite Hc. replace (- (k - 23))%Z with (23 - k)%Z by lia.
  f_equal. f_equal. unfold rne.
  rewrite (Zfloor_eq n) by lra.
  destruct (Rlt_dec _ _) as [|Hne]; [done|]. lra.
Qed.

Lemma round32_Z (n : Z) : (Z.abs n < 2 ^ 24)%Z → round32 (IZR n) = IZR n.
Proof. intros Hn. apply round32_representable, representable_Z, Hn. Qed.

(** ** The effective band in single precision *)

Lemma effective_low32_lookup (self : SincParamFB) (ls : list R) (i : nat)
    (l : R) :
  low_hz_ self = Fin <$> ls → ls !! i = Some l →
  effective_low32 self !! i
  = Some (Fin (round32 (round32 (min_low_hz self) + Rabs l))).
Proof.
  intros Hls Hl. unfold effective_low32.
  rewrite Hls, !list_lookup_fmap, Hl. reflexivity.
Qed.

Lemma band_sum32_lookup (self : SincParamFB) (ls bs : list R) (i : nat)
    (l b : R) :
  low_hz_ self = Fin <$> ls → band_hz_ self = Fin <$> bs →
  ls !! i = Some l → bs !! i = Some b →
  band_sum32 self !! i
  = Some (Fin (round32
                 (round32 (round32 (round32 (min_low_hz self) + Rabs l)
                           + round32 (min_band_hz self))
                  + Rabs b))).
Proof.
  intros Hls Hbs Hl Hb. unfold band_sum32.
  rewrite lookup_zip_with, (effective_low32_lookup self ls i l Hls Hl).
  rewrite Hbs, list_lookup_fmap, Hb. reflexivity.
Qed.

Lemma band32_lookup (self : SincParamFB) (i : nat) (low sum : R) :
  effective_low32 self !! i = Some (Fin low) →
  band_sum32 self !! i = Some (Fin sum) →
  let high :=
    Rmin (Rmax sum (round32 (min_low_hz self)))
      (round32 (sample_rate self / 2)) in
  let band := round32 (high - low) in
  effective_high32 self !! i = Some (Fin high)
  ∧ band32 self !! i = Some (Fin band)
  ∧ divisor32 self !! i = Some (Fin (round32 (2 * band)))
  ∧ center_cos32 self !! i
    = Some (fround (fdiv (Fin (round32 (2 * band)))
                      (Fin (round32 (2 * band)))))
  ∧ center_sin32 self !! i
    = Some (fround (fdiv (Fin 0) (Fin (round32 (2 * band))))).
Proof.
  intros Hlow Hsum high band.
  assert (Hhigh : effective_high32 self !! i = Some (Fin high)).
  { unfold effective_high32. rewrite list_lookup_fmap, Hsum. reflexivity. }
  assert (Hband : band32 self !! i = Some (Fin band)).
  { unfold band32. rewrite lookup_zip_with, Hhigh, Hlow. reflexivity. }
  assert (Hdiv : divisor32 self !! i = Some (Fin (round32 (2 * band)))).
  { unfold divisor32. rewrite list_lookup_fmap, Hband. reflexivity. }
  repeat split; try assumption.
  - unfold center_cos32. rewrite lookup_zip_with, Hband, Hdiv. reflexivity.
  - unfold center_sin32. rewrite list_lookup_fmap, Hdiv. reflexivity.
Qed.

Lemma zero_band_center (band : R) :
  band = 0 →
  fround (fdiv (Fin (round32 (2 * band))) (Fin (round32 (2 * band)))) = NaN
  ∧ fround (fdiv (Fin 0) (Fin (round32 (2 * band)))) = NaN.
Proof.
  intros ->. rewrite Rmult_0_r, round32_0. simpl.
  destruct (Req_dec_T 0 0) as [_ | H]; [| lra].
  rewrite Rsgn_zero. split; reflexivity.
Qed.

(** C9, as amended: in single precision, with [min_band_hz >= 0] and
    real-valued parameters, the effective band of a filter, the rounded
    difference [high - low], is positive exactly when the computed [low]
    is below [sample_rate / 2] (as a single-precision number) and the
    rounded sum [low + min_band_hz + |band_hz|] is above [low].  A
    positive band therefore needs [min_low_hz + |low_hz| < sample_rate / 2]
    ([min_low_hz] converted to single precision), but that is not enough:
    the sum can round back to [low], and the band is then 0.  When
    [min_low_hz + |low_hz| >= sample_rate / 2] the clamp pulls [high] down
    to [sample_rate / 2 <= low] and the band is at most 0.  The band is 0
    exactly when [low] equals [sample_rate / 2], or [low] is below it and
    the sum has rounded back to [low].  Nothing guards the division by
    [2 * band]: with a zero band the divisor is 0 and the center samples
    of the two kernels of the filter are the result of dividing zero by
    zero, NaN. *)
Theorem band_positive_single_precision (self : SincParamFB) (ls bs : list R)
    (f : nat) (l b : R) :
  low_hz_ self = Fin <$> ls → band_hz_ self = Fin <$> bs →
  ls !! f = Some l → bs !! f = Some b →
  0 <= min_band_hz self →
  let nyquist := round32 (sample_rate self / 2) in
  ∃ low sum high band : R,
    effective_low32 self !! f = Some (Fin low)
    ∧ band_sum32 self !! f = Some (Fin sum)
    ∧ effective_high32 self !! f = Some (Fin high)
    ∧ band32 self !! f = Some (Fin band)
    ∧ low = round32 (round32 (min_low_hz self) + Rabs l)
    ∧ sum = round32 (round32 (low + round32 (min_band_hz self)) + Rabs b)
    ∧ low <= sum
    ∧ high = Rmin sum nyquist
    ∧ band = round32 (high - low)
    ∧ (0 < band ↔ low < nyquist ∧ low < sum)
    ∧ (0 < band → round32 (min_low_hz self) + Rabs l < sample_rate self / 2)
    ∧ (sample_rate self / 2 <= round32 (min_low_hz self) + Rabs l →
       nyquist <= low)
    ∧ (nyquist <= low → high = nyquist ∧ high <= low ∧ band <= 0)
    ∧ (band = 0 ↔ low = nyquist ∨ (low = sum ∧ low < nyquist))
    ∧ (band = 0 →
       divisor32 self !! f = Some (Fin 0)
       ∧ center_cos32 self !! f = Some NaN
       ∧ center_sin32 self !! f = Some NaN).
Proof.
  intros Hls Hbs Hl Hb Hmb nyquist.
  set (mlf := round32 (min_low_hz self)).
  set (low := round32 (mlf + Rabs l)).
  set (sum := round32 (round32 (low + round32 (min_band_hz self)) + Rabs b)).
  pose proof (effective_low32_lookup self ls f l Hls Hl) as Hlow.
  pose proof (band_sum32_lookup self ls bs f l b Hls Hbs Hl Hb) as Hsum.
  fold mlf low sum in Hlow, Hsum.
  destruct (band32_lookup self f low sum Hlow Hsum)
    as (Hhigh & Hband & Hdiv & Hcos & Hsin).
  fold mlf nyquist in Hhigh, Hband, Hdiv, Hcos, Hsin.
  pose proof (Rabs_pos l) as Hl0. pose proof (Rabs_pos b) as Hb0.
  assert (Hmlf : mlf <= low).
  { apply Rle_trans with (round32 mlf).
    - right. symmetry. apply round32_idempotent.
    - apply round32_le. lra. }
  assert (Hlow_fix : round32 low = low) by apply round32_idempotent.
  assert (Hlow_sum : low <= sum).
  { pose proof (round32_nonneg _ Hmb) as Hmbf.
    assert (low <= round32 (low + round32 (min_band_hz self))) as H1.
    { rewrite <- Hlow_fix at 1. apply round32_le. lra. }
    rewrite <- Hlow_fix. apply round32_le. lra. }
  assert (Hmax : Rmax sum mlf = sum) by (apply Rmax_left; lra).
  rewrite Hmax in Hhigh, Hband, Hdiv, Hcos, Hsin.
  set (high := Rmin sum nyquist) in *.
  set (band := round32 (high - low)) in *.
  assert (Hrep_low : representable low) by apply round32_in_format.
  assert (Hrep_high : representable high).
  { unfold high, Rmin. destruct (Rle_dec sum nyquist);
      apply round32_in_format. }
  destruct (round32_sub_sign high low Hrep_high Hrep_low)
    as (Hpos & Hzero & Hneg).
  fold band in Hpos, Hzero, Hneg.
  exists low, sum, high, band.
  do 9 (split; [done |]).
  split; [| split; [| split; [| split; [| split]]]].
  - rewrite Hpos. unfold high, Rmin.
    destruct (Rle_dec sum nyquist); split; intros; lra.
  - intros H. apply Hpos in H.
    assert (low < nyquist) as Hlt.
    { revert H. unfold high, Rmin. destruct (Rle_dec sum nyquist); lra. }
    destruct (Rlt_le_dec (mlf + Rabs l) (sample_rate self / 2))
      as [| Hge]; [done |].
    apply round32_le in Hge. fold low nyquist in Hge. lra.
  - intros H. apply round32_le in H. done.
  - intros H.
    assert (high = nyquist) as Hh.
    { unfold high, Rmin. destruct (Rle_dec sum nyquist); lra. }
    split; [done |]. split; [lra |].
    destruct (Rle_lt_dec band 0) as [| Hb']; [done |].
    apply Hpos in Hb'. lra.
  - rewrite Hzero. unfold high, Rmin.
    destruct (Rle_dec sum nyquist); split; intros; lra.
  - intros H0. destruct (zero_band_center band H0) as [Hc Hs].
    rewrite Hc in Hcos. rewrite Hs in Hsin.
    rewrite H0, Rmult_0_r, round32_0 in Hdiv. done.
Qed.

Lemma band_positive_single_precision_witness :
  ∃ self0,
    snd (__init__ 2 3 1 "encoder" 16000 50 50) = Ok self0
    ∧ ∃ low sum high band : R,
        effective_low32 (update self0 [Fin 100] [Fin 200]) !! 0%nat
        = Some (Fin low)
        ∧ band_sum32 (update self0 [Fin 100] [Fin 200]) !! 0%nat
          = Some (Fin sum)
        ∧ effective_high32 (update self0 [Fin 100] [Fin 200]) !! 0%nat
          = Some (Fin high)
        ∧ band32 (update self0 [Fin 100] [Fin 200]) !! 0%nat
          = Some (Fin band)
        ∧ low = 150 ∧ sum = 400 ∧ high = 400 ∧ band = 250
        ∧ (0 < band ↔ low < round32 (16000 / 2) ∧ low < sum).
Proof.
  destruct (init_succeeds 2 3 1 "encoder" 16000 50 50) as [self0 Hself0];
    [by vm_compute | by vm_compute |].
  exists self0. split; [assumption |].
  destruct (init_fields _ _ _ _ _ _ _ _ Hself0)
    as (_ & _ & Hsr & Hml & Hmb & _).
  assert (Hmb0 : 0 <= min_band_hz (update self0 [Fin 100] [Fin 200]))
    by (simpl; rewrite Hmb; lra).
  pose proof (band_positive_single_precision
                (update self0 [Fin 100] [Fin 200]) [100] [200]
                0%nat 100 200 eq_refl eq_refl eq_refl eq_refl Hmb0)
    as (low & sum & high & band & H1 & H2 & H3 & H4 & Hlow & Hsum & _
        & Hhigh & Hband & Hiff & _).
  simpl in Hlow, Hsum, Hhigh, Hband, Hiff.
  rewrite ?Hsr, ?Hml, ?Hmb in *.
  assert (Hnyq : round32 (16000 / 2) = 8000).
  { replace (16000 / 2) with 8000 by lra. by apply (round32_Z 8000). }
  assert (Hlow' : low = 150).
  { rewrite Hlow, (round32_Z 50), (Rabs_pos_eq 100) by (done || lra).
    replace (50 + 100) with 150 by lra. by apply (round32_Z 150). }
  assert (Hsum' : sum = 400).
  { rewrite Hsum, Hlow', (round32_Z 50), (Rabs_pos_eq 200) by (done || lra).
    replace (150 + 50) with 200 by lra. rewrite (round32_Z 200) by done.
    replace (200 + 200) with 400 by lra. by apply (round32_Z 400). }
  assert (Hhigh' : high = 400).
  { rewrite Hhigh, Hsum', Hnyq. unfold Rmin.
    destruct (Rle_dec 400 8000); lra. }
  assert (Hband' : band = 250).
  { rewrite Hband, Hhigh', Hlow'.
    replace (400 - 150) with 250 by lra. by apply (round32_Z 250). }
  exists low, sum, high, band.
  do 8 (split; [assumption |]). exact Hiff.
Defined.

(** C9, as stated, fails: with [sample_rate = 16000], [min_low_hz = 50],
    [min_band_hz = 2 ^ -20 > 0] and the raw parameters [low_hz = 100],
    [band_hz = 0], the effective low frequency is 150, and
    [min_low_hz + |low_hz| < sample_rate / 2]; the spacing of the
    single-precision numbers around 150 is [2 ^ -16], so the sum
    [150 + 2 ^ -20] rounds back to 150: [high = low], the band is 0, not
    positive, and the center samples are NaN. *)
Lemma min_band_hz_absorbed :
  ∃ self0,
    snd (__init__ 2 3 1 "encoder" 16000 50 (/ 1048576)) = Ok self0
    ∧ 0 < min_band_hz (update self0 [Fin 100] [Fin 0])
    ∧ min_low_hz (update self0 [Fin 100] [Fin 0]) + Rabs 100
      < sample_rate (update self0 [Fin 100] [Fin 0]) / 2
    ∧ effective_low32 (update self0 [Fin 100] [Fin 0]) = [Fin 150]
    ∧ effective_high32 (update self0 [Fin 100] [Fin 0]) = [Fin 150]
    ∧ band32 (update self0 [Fin 100] [Fin 0]) = [Fin 0]
    ∧ ¬ (0 < 0)
    ∧ divisor32 (update self0 [Fin 100] [Fin 0]) = [Fin 0]
    ∧ center_cos32 (update self0 [Fin 100] [Fin 0]) = [NaN]
    ∧ center_sin32 (update self0 [Fin 100] [Fin 0]) = [NaN].
Proof.
  destruct (init_succeeds 2 3 1 "encoder" 16000 50 (/ 1048576))
    as [self0 Hself0]; [by vm_compute | by vm_compute |].
  exists self0. split; [assumption |].
  destruct (init_fields _ _ _ _ _ _ _ _ Hself0)
    as (_ & _ & Hsr & Hml & Hmb & _).
  assert (Hlow : round32 (round32 50 + Rabs 100) = 150).
  { rewrite (round32_Z 50), (Rabs_pos_eq 100) by (done || lra).
    replace (50 + 100) with 150 by lra. by apply (round32_Z 150). }
  assert (Hmbf : round32 (/ 1048576) = / 1048576).
  { apply round32_representable. exists 1%Z, (-20)%Z.
    split; [simpl; lra |]. split; [done | lia]. }
  assert (Habsorb : round32 (150 + / 1048576) = 150).
  { rewrite (round32_near (150 + / 1048576) 7 9830400).
    - simpl. lra.
    - rewrite Rabs_pos_eq by lra. simpl. lra.
    - lia.
    - simpl. lra. }
  assert (Hsum : round32 (round32 (150 + round32 (/ 1048576)) + Rabs 0)
                 = 150).
  { rewrite Hmbf, Habsorb, Rabs_R0.
    replace (150 + 0) with 150 by lra. by apply (round32_Z 150). }
  assert (Hnyq : round32 (16000 / 2) = 8000).
  { replace (16000 / 2) with 8000 by lra. by apply (round32_Z 8000). }
  assert (Hhigh : Rmin (Rmax 150 (round32 50)) 8000 = 150).
  { rewrite (round32_Z 50) by done. unfold Rmin, Rmax.
    destruct (Rle_dec 150 50); destruct (Rle_dec _ 8000); lra. }
  assert (Hband : round32 (150 + Ropp 150) = 0).
  { replace (150 + Ropp 150) with 0 by lra. apply round32_0. }
  assert (Hdiv : round32 (2 * 0) = 0).
  { rewrite Rmult_0_r. apply round32_0. }
  split; [simpl; rewrite Hmb; lra |].
  split; [simpl; rewrite Hsr, Hml, Rabs_pos_eq; lra |].
  assert (He_low : effective_low32 (update self0 [Fin 100] [Fin 0])
                   = [Fin 150]).
  { unfold effective_low32. simpl. rewrite Hml, Hlow. reflexivity. }
  assert (He_high : effective_high32 (update self0 [Fin 100] [Fin 0])
                    = [Fin 150]).
  { unfold effective_high32, band_sum32. rewrite He_low. simpl.
    rewrite Hsr, Hml, Hmb, Hsum, Hnyq, Hhigh. reflexivity. }
  assert (He_band : band32 (update self0 [Fin 100] [Fin 0]) = [Fin 0]).
  { unfold band32. rewrite He_high, He_low. simpl.
    rewrite Hband. reflexivity. }
  assert (He_div : divisor32 (update self0 [Fin 100] [Fin 0]) = [Fin 0]).
  { unfold divisor32. rewrite He_band. simpl. rewrite Hdiv. reflexivity. }
  split; [exact He_low |]. split; [exact He_high |].
  split; [exact He_band |]. split; [lra |]. split; [exact He_div |].
  unfold center_cos32, center_sin32. rewrite He_div, He_band. simpl.
  rewrite Hdiv.
  destruct (Req_dec_T 0 0) as [_ | H]; [| lra].
  rewrite Rsgn_zero. split; reflexivity.
Qed.

(** * Further properties of the class *)

(** ** The sign of the raw parameters *)

Lemma effective_low_abs (self : SincParamFB) (low band : list float) :
  effective_low (update self low band)
  = (λ a, fadd (Fin (min_low_hz self)) a) <$> (fabs <$> low).
Proof.
  unfold effective_low. simpl. rewrite <- list_fmap_compose. reflexivity.
Qed.

Lemma effective_high_abs (self : SincParamFB) (low band : list float) :
  effective_high (update self low band)
  = zip_with
      (λ lo a,
         torch.clamp (fadd (fadd lo (Fin (min_band_hz self))) a)
           (min_low_hz self) (sample_rate self / 2))
      ((λ a, fadd (Fin (min_low_hz self)) a) <$> (fabs <$> low))
      (fabs <$> band).
Proof.
  unfold effective_high. rewrite effective_low_abs. simpl.
  rewrite zip_with_fmap_r. reflexivity.
Qed.

(** X1: the bank depends on the raw parameters through their absolute
    values only: two settings of [low_hz_] and [band_hz_] that agree up to
    the signs of their entries give the same result of [filters]. *)
Theorem filters_sign_insensitive (self : SincParamFB)
    (low band low' band' : list float) :
  fabs <$> low' = fabs <$> low →
  fabs <$> band' = fabs <$> band →
  filters (update self low' band') = filters (update self low band).
Proof.
  intros Hlow Hband. unfold filters.
  rewrite !effective_low_abs, !effective_high_abs, Hlow, Hband.
  reflexivity.
Qed.

Lemma filters_sign_insensitive_witness :
  ∃ self0,
    snd (__init__ 4 5 1 "encoder" 16000 50 50) = Ok self0
    ∧ filters (update self0 [Fin (-100); Fin 300] [Fin 200; Fin (-10)])
      = filters (update self0 [Fin 100; Fin (-300)] [Fin (-200); Fin 10]).
Proof.
  destruct (init_succeeds 4 5 1 "encoder" 16000 50 50) as [self0 Hself0];
    [by vm_compute | by vm_compute |].
  exists self0. split; [assumption |].
  assert (H1 : Rabs (-100) = Rabs 100) by real_cases.
  assert (H2 : Rabs (-300) = Rabs 300) by real_cases.
  assert (H3 : Rabs (-200) = Rabs 200) by real_cases.
  assert (H4 : Rabs (-10) = Rabs 10) by real_cases.
  apply filters_sign_insensitive; simpl; rewrite ?H1, ?H2, ?H3, ?H4;
    reflexivity.
Defined.

(** ** The constructor *)

(** X2: an even [kernel_size] gives the very instance (or the very
    exception) that the next odd number gives; only the printed line
    tells the two calls apart. *)
Theorem even_kernel_size_as_next_odd (n k st : Z) (mode : string)
    (sr ml mb : R) :
  (k mod 2 = 0)%Z →
  snd (__init__ n k st mode sr ml mb)
  = snd (__init__ n (k + 1) st mode sr ml mb)
  ∧ fst (__init__ n (k + 1) st mode sr ml mb) = [].
Proof.
  intros Heven.
  assert (Hodd : ((k + 1) mod 2 = 1)%Z)
    by (rewrite Z.add_mod, Heven by lia; reflexivity).
  unfold __init__. rewrite Heven, Hodd. simpl. split; reflexivity.
Qed.

Lemma even_kernel_size_as_next_odd_witness :
  snd (__init__ 4 4 1 "encoder" 16000 50 50)
  = snd (__init__ 4 5 1 "encoder" 16000 50 50)
  ∧ fst (__init__ 4 5 1 "encoder" 16000 50 50) = [].
Proof.
  apply (even_kernel_size_as_next_odd 4 4 1 "encoder" 16000 50 50).
  reflexivity.
Defined.

(** X3: the outcome of the constructor, in full: it returns an instance
    exactly when [n_filters // 2 + 1 >= 0] and [kernel_size >= 0]; a
    negative number of points ends in the [ValueError] of [np.linspace],
    whatever the kernel size; otherwise a negative kernel size ends in
    the [RuntimeError] of [torch.arange], whose bounds are inverted. *)
Theorem constructor_outcome (n k st : Z) (mode : string) (sr ml mb : R) :
  match snd (__init__ n k st mode sr ml mb) with
  | Ok self => (0 ≤ n / 2 + 1)%Z ∧ (0 ≤ k)%Z
  | Error (ValueError _) => (n / 2 + 1 < 0)%Z
  | Error RuntimeError => (0 ≤ n / 2 + 1)%Z ∧ (k < 0)%Z
  end.
Proof.
  destruct (Z.lt_ge_cases (n / 2 + 1) 0) as [Hn | Hn].
  - destruct (initialize_filters_Error n sr ml mb Hn) as [msg Hmsg].
    rewrite (init_Error _ k st mode _ _ _ _ Hmsg). assumption.
  - destruct (Z.lt_ge_cases k 0) as [Hk | Hk].
    + destruct (initialize_filters_Ok n sr ml mb Hn) as (hz & _ & _ & Hinit).
      assert (Hcut : (0 <? - ((if (k mod 2 =? 0)%Z then k + 1 else k) / 2))%Z
                     = true).
      { apply Z.ltb_lt.
        assert (((if (k mod 2 =? 0)%Z then k + 1 else k) / 2 < 0)%Z);
          [| lia].
        apply Z.div_lt_upper_bound; [lia |].
        destruct (Z.eqb_spec (k mod 2) 0) as [H | H]; [| lia].
        destruct (Z.eq_dec k (-1)%Z) as [-> | H']; [discriminate H | lia]. }
      unfold __init__.
      destruct (k mod 2 =? 0)%Z; simpl; rewrite Hinit; simpl;
        unfold torch.arange; rewrite Hcut; simpl; split; assumption.
    + destruct (init_succeeds n k st mode sr ml mb Hn Hk) as [self ->].
      split; assumption.
Qed.

(** X4: [n_filters] need not be even for generation to succeed, but the
    bank then has one kernel less than asked for: for every
    [n_filters >= 0] and positive [kernel_size], whatever the values of the
    parameters, [filters] returns a tensor of shape
    [(n_filters - n_filters % 2, 1, kernel_size)]; for [n_filters] 0 or 1
    it is empty. *)
Theorem bank_shape_any_count (n k st : Z) (mode : string) (sr ml mb : R) :
  (0 ≤ n)%Z → (0 < k)%Z →
  ∃ self0,
    snd (__init__ n k st mode sr ml mb) = Ok self0
    ∧ ∀ low_hz band_hz : list float,
        length low_hz = Z.to_nat (n / 2) →
        length band_hz = Z.to_nat (n / 2) →
        ∃ bank,
          filters (update self0 low_hz band_hz) = Ok bank
          ∧ shape3 bank (n - n mod 2) 1 (kernel_size self0)
          ∧ (n < 2 → bank = [])%Z.
Proof.
  intros Hn Hk.
  assert (Hn' : (0 ≤ n / 2)%Z) by (apply Z.div_pos; lia).
  pose proof (Z.div_mod n 2 ltac:(lia)) as Hdm.
  destruct (init_succeeds n k st mode sr ml mb) as [self0 Hself0];
    [lia | lia |].
  pose proof (init_well_shaped n k st mode sr ml mb self0 Hn Hk Hself0)
    as Hws0.
  destruct (init_fields _ _ _ _ _ _ _ _ Hself0) as (Hnf & _).
  exists self0. split; [assumption |].
  intros low_hz band_hz Hlow Hband.
  set (self := update self0 low_hz band_hz).
  assert (Hws : well_shaped self).
  { apply update_well_shaped; [assumption | |];
      [rewrite (ws_low _ Hws0) | rewrite (ws_band _ Hws0)]; congruence. }
  destruct (filters_bank self Hws) as (_ & _ & Hbank).
  destruct (shape3_kernels self (effective_low self) (effective_high self)
              Hws) as [Hc Hs].
  { rewrite length_effective_low. simpl. congruence. }
  { rewrite length_effective_high; simpl; congruence. }
  simpl in Hc, Hs. rewrite Hnf in Hc, Hs.
  pose proof (shape3_app _ _ _ _ _ _ Hc Hs) as Hsum.
  replace (n / 2 + n / 2)%Z with (n - n mod 2)%Z in Hsum by lia.
  eexists. split; [exact Hbank |]. split; [exact Hsum |].
  intros Hsmall. destruct Hsum as [Hlen _].
  apply length_zero_iff_nil.
  pose proof (Z.mod_pos_bound n 2 ltac:(lia)). lia.
Qed.

Lemma bank_shape_any_count_witness :
  ∃ self0,
    snd (__init__ 5 3 1 "encoder" 16000 50 50) = Ok self0
    ∧ ∃ bank,
        filters (update self0 [Fin 100; Fin 300] [Fin 200; Fin 10]) = Ok bank
        ∧ shape3 bank 4 1 3.
Proof.
  destruct (bank_shape_any_count 5 3 1 "encoder" 16000 50 50)
    as (self0 & Hself0 & Hgen); [lia | lia |].
  exists self0. split; [assumption |].
  destruct (Hgen [Fin 100; Fin 300] [Fin 200; Fin 10] eq_refl eq_refl)
    as (bank & Hbank & Hshape & _).
  destruct (kernel_size_cutoff _ _ _ _ _ _ _ _ Hself0) as [HK _].
  rewrite HK in Hshape. eauto.
Defined.

(** ** The mel scale *)

Lemma mel_of_increasing (f1 f2 : R) :
  -700 < f1 → f1 < f2 → mel_of f1 < mel_of f2.
Proof.
  intros H1 H12. unfold mel_of. pose proof ln_10_pos as H10.
  assert (Hln : ln (1 + f1 / 700) < ln (1 + f2 / 700))
    by (apply ln_increasing; lra).
  apply Rmult_lt_compat_l; [lra |].
  apply Rmult_lt_compat_r; [apply Rinv_0_lt_compat; assumption | assumption].
Qed.

Lemma hz_of_increasing (m1 m2 : R) : m1 < m2 → hz_of m1 < hz_of m2.
Proof.
  intros H12. unfold hz_of, Rpower. pose proof ln_10_pos as H10.
  assert (Hexp : exp (m1 / 2595 * ln 10) < exp (m2 / 2595 * ln 10)).
  { apply exp_increasing. apply Rmult_lt_compat_r; [assumption | lra]. }
  lra.
Qed.

Lemma hz_of_le (m1 m2 : R) : m1 <= m2 → hz_of m1 <= hz_of m2.
Proof.
  intros [H | ->]; [left; apply hz_of_increasing; exact H | right; reflexivity].
Qed.

Lemma hz_of_mel_of (f : R) : -700 < f → hz_of (mel_of f) = f.
Proof.
  intros Hf. unfold hz_of, mel_of, Rpower. pose proof ln_10_pos as H10.
  replace (2595 * (ln (1 + f / 700) / ln 10) / 2595 * ln 10)
    with (ln (1 + f / 700)) by (field; lra).
  rewrite exp_ln by lra. field.
Qed.

(** X5: both conversions preserve the order of their arguments: [to_mel]
    is finite and strictly increasing on the frequencies above -700 Hz,
    [to_hz] is finite and strictly increasing on all real mel values, with
    no lower bound, and both map 0 to 0 (exact arithmetic). *)
Theorem mel_scale_monotone (f1 f2 m1 m2 : R) :
  -700 < f1 → f1 < f2 → m1 < m2 →
  to_mel (Fin f1) = Fin (mel_of f1) ∧ to_mel (Fin f2) = Fin (mel_of f2)
  ∧ mel_of f1 < mel_of f2
  ∧ to_hz (Fin m1) = Fin (hz_of m1) ∧ to_hz (Fin m2) = Fin (hz_of m2)
  ∧ hz_of m1 < hz_of m2
  ∧ to_mel (Fin 0) = Fin 0 ∧ to_hz (Fin 0) = Fin 0.
Proof.
  intros H1 H12 Hm.
  split; [apply to_mel_Fin; lra |]. split; [apply to_mel_Fin; lra |].
  split; [apply mel_of_increasing; assumption |].
  split; [apply to_hz_Fin |]. split; [apply to_hz_Fin |].
  split; [apply hz_of_increasing; assumption |]. split.
  - rewrite to_mel_Fin by lra. f_equal.
    replace (1 + 0 / 700) with 1 by field. rewrite ln_1. field.
    pose proof ln_10_pos. lra.
  - rewrite to_hz_Fin. f_equal. unfold Rpower.
    replace (0 / 2595 * ln 10) with 0 by field. rewrite exp_0. ring.
Qed.

Lemma mel_scale_monotone_witness :
  to_mel (Fin 30) = Fin (mel_of 30) ∧ to_mel (Fin 7900) = Fin (mel_of 7900)
  ∧ mel_of 30 < mel_of 7900
  ∧ to_hz (Fin (-5000)) = Fin (hz_of (-5000))
  ∧ to_hz (Fin 100) = Fin (hz_of 100)
  ∧ hz_of (-5000) < hz_of 100
  ∧ to_mel (Fin 0) = Fin 0 ∧ to_hz (Fin 0) = Fin 0.
Proof. apply (mel_scale_monotone 30 7900 (-5000) 100); lra. Defined.

(** ** The initial parameters *)

Lemma Rsgn_neg (x : R) : x < 0 → Rsgn x = Lt.
Proof.
  intros Hx. unfold Rsgn.
  destruct (total_order_T x 0) as [[H | H] | H]; try reflexivity; lra.
Qed.

Lemma to_mel_NaN (f : R) : f < -700 → to_mel (Fin f) = NaN.
Proof.
  intros Hf. unfold to_mel. rewrite fdiv_Fin by lra. simpl.
  rewrite Rsgn_neg by lra. reflexivity.
Qed.

Lemma init_low_band (n k st : Z) (mode : string) (sr ml mb : R) :
  (0 ≤ n)%Z → (0 ≤ k)%Z →
  ∃ self hz,
    snd (__init__ n k st mode sr ml mb) = Ok self
    ∧ mel_points n sr ml mb = Ok hz
    ∧ length hz = S (Z.to_nat (n / 2))
    ∧ low_hz_ self = take (Z.to_nat (n / 2)) hz
    ∧ band_hz_ self = np.diff hz.
Proof.
  intros Hn Hk.
  assert (Hn' : (0 ≤ n / 2)%Z) by (apply Z.div_pos; lia).
  destruct (initialize_filters_Ok n sr ml mb) as (hz & Hhz & Hlen & Hinit);
    [lia |].
  eexists _, hz. split; [apply (init_Ok n k st mode sr ml mb _ _ Hk Hinit) |].
  split; [assumption |]. split; [lia |]. simpl. split; [| reflexivity].
  f_equal. lia.
Qed.

(** X6: a misconfigured frequency range is not refused: when
    [sample_rate / 2 - (min_low_hz + min_band_hz)] is below -700 Hz, the
    logarithm of [to_mel] is taken of a negative number, and the
    constructor returns an instance all of whose initial parameters are
    NaN. *)
Theorem initial_parameters_NaN (n k st : Z) (mode : string) (sr ml mb : R) :
  (0 ≤ n)%Z → (0 ≤ k)%Z → sr / 2 - (ml + mb) < -700 →
  ∃ self,
    snd (__init__ n k st mode sr ml mb) = Ok self
    ∧ low_hz_ self = replicate (Z.to_nat (n / 2)) NaN
    ∧ band_hz_ self = replicate (Z.to_nat (n / 2)) NaN.
Proof.
  intros Hn Hk Hhigh.
  assert (Hn' : (0 ≤ n / 2)%Z) by (apply Z.div_pos; lia).
  destruct (init_low_band n k st mode sr ml mb Hn Hk)
    as (self & hz & Hself & Hhz & Hlen & Hlow & Hband).
  exists self. split; [assumption |].
  assert (Hnan : (0 < n / 2)%Z →
                 ∀ (i : nat) (x : float), hz !! i = Some x → x = NaN).
  { intros Hpos i x Hx.
    pose proof (lookup_lt_Some _ _ _ Hx) as Hi.
    rewrite (mel_points_spec n sr ml mb hz Hpos Hhz i ltac:(lia)) in Hx.
    injection Hx as <-. unfold spec_hz, spec_mel_point.
    rewrite (to_mel_NaN _ Hhigh), (to_mel_Fin 30) by lra. reflexivity. }
  split.
  - rewrite Hlow. symmetry. apply replicate_as_Forall. split.
    + rewrite length_take. lia.
    + apply Forall_lookup. intros i x Hx.
      apply lookup_take_Some in Hx as [Hx Hi].
      symmetry. apply (Hnan ltac:(lia) i x Hx).
  - rewrite Hband. symmetry. apply replicate_as_Forall. split.
    + rewrite length_diff. lia.
    + apply Forall_lookup. intros i x Hx. unfold np.diff in Hx.
      apply lookup_zip_with_Some in Hx as (a & b & -> & Ha & Hb).
      rewrite lookup_drop in Ha. apply lookup_take_Some in Hb as [Hb Hi].
      rewrite (Hnan ltac:(lia) _ _ Ha), (Hnan ltac:(lia) _ _ Hb).
      reflexivity.
Qed.

Lemma initial_parameters_NaN_witness :
  ∃ self,
    snd (__init__ 4 5 1 "encoder" 100 500 500) = Ok self
    ∧ low_hz_ self = [NaN; NaN]
    ∧ band_hz_ self = [NaN; NaN].
Proof.
  apply (initial_parameters_NaN 4 5 1 "encoder" 100 500 500); [lia | lia | lra].
Defined.

Section InitialFrequencies.

Variables (n : Z) (sr ml mb : R).
Hypothesis HN : (0 < n / 2)%Z.
Hypothesis Hhigh : 30 < sr / 2 - (ml + mb).

Let N : R := IZR (n / 2).
Let a : R := mel_of 30.
Let b : R := mel_of (sr / 2 - (ml + mb)).

Lemma init_hz_step_pos : 0 < (b - a) / N.
Proof using HN Hhigh.
  assert (HN' : 0 < N) by (apply (IZR_lt 0); assumption).
  assert (Hab : a < b) by (apply mel_of_increasing; lra).
  apply Rdiv_lt_0_compat; lra.
Qed.

Lemma init_hz_first : init_hz n sr ml mb 0 = 30.
Proof using Type.
  unfold init_hz. simpl. rewrite Rmult_0_l, Rplus_0_r.
  apply hz_of_mel_of. lra.
Qed.

Lemma init_hz_last :
  init_hz n sr ml mb (Z.to_nat (n / 2)) = sr / 2 - (ml + mb).
Proof using HN Hhigh.
  assert (HN' : 0 < N) by (apply (IZR_lt 0); assumption).
  unfold init_hz. rewrite Z2Nat.id by lia. fold N a b.
  replace (a + N * ((b - a) / N)) with b by (field; lra).
  apply hz_of_mel_of. lra.
Qed.

Lemma init_hz_increasing (i : nat) :
  init_hz n sr ml mb i < init_hz n sr ml mb (S i).
Proof using HN Hhigh.
  unfold init_hz. fold N a b. apply hz_of_increasing.
  rewrite Nat2Z.inj_succ, succ_IZR.
  pose proof init_hz_step_pos. lra.
Qed.

Lemma init_hz_bounds (i : nat) :
  (Z.of_nat i ≤ n / 2)%Z →
  30 <= init_hz n sr ml mb i <= sr / 2 - (ml + mb).
Proof using HN Hhigh.
  intros Hi.
  assert (HN' : 0 < N) by (apply (IZR_lt 0); assumption).
  pose proof init_hz_step_pos as Hd.
  assert (Hi0 : 0 <= IZR (Z.of_nat i)) by (apply (IZR_le 0); lia).
  assert (HiN : IZR (Z.of_nat i) <= N) by (apply IZR_le; assumption).
  assert (Hlo : a <= a + IZR (Z.of_nat i) * ((b - a) / N)) by nra.
  assert (Hhi : a + IZR (Z.of_nat i) * ((b - a) / N) <= b).
  { assert (Hb : N * ((b - a) / N) = b - a) by (field; lra). nra. }
  pose proof (hz_of_mel_of 30 ltac:(lra)) as Ha.
  pose proof (hz_of_mel_of (sr / 2 - (ml + mb)) ltac:(lra)) as Hb.
  fold a in Ha. fold b in Hb.
  unfold init_hz. fold N a b. split.
  - rewrite <- Ha at 1. apply hz_of_le. exact Hlo.
  - rewrite <- Hb. apply hz_of_le. exact Hhi.
Qed.

(** The points of [mel_points] are finite, and are those of [init_hz]. *)
Lemma mel_points_real :
  mel_points n sr ml mb
  = Ok ((λ i, Fin (init_hz n sr ml mb i)) <$> seq 0 (S (Z.to_nat (n / 2)))).
Proof using HN Hhigh.
  destruct (initialize_filters_Ok n sr ml mb) as (hz & Hhz & Hlen & _);
    [lia |].
  rewrite Hhz. f_equal. apply list_eq. intros i.
  rewrite list_lookup_fmap.
  destruct (decide (i < S (Z.to_nat (n / 2)))%nat) as [Hi | Hi].
  - rewrite (mel_points_spec n sr ml mb hz HN Hhz i) by lia.
    rewrite lookup_seq_lt by assumption. simpl. f_equal.
    apply (spec_hz_finite n sr ml mb i HN). lra.
  - rewrite lookup_ge_None_2 by lia.
    rewrite lookup_seq_ge by lia. reflexivity.
Qed.

End InitialFrequencies.

Lemma init_real (n k st : Z) (mode : string) (sr ml mb : R) :
  (0 < n / 2)%Z → (0 ≤ k)%Z → 30 < sr / 2 - (ml + mb) →
  ∃ self,
    snd (__init__ n k st mode sr ml mb) = Ok self
    ∧ low_hz_ self
      = (λ i, Fin (init_hz n sr ml mb i)) <$> seq 0 (Z.to_nat (n / 2))
    ∧ band_hz_ self
      = (λ i, Fin (init_hz n sr ml mb (S i) - init_hz n sr ml mb i))
          <$> seq 0 (Z.to_nat (n / 2)).
Proof.
  intros HN Hk Hhigh.
  assert (Hn : (0 ≤ n)%Z).
  { destruct (Z.lt_ge_cases n 0) as [H | H]; [| assumption].
    assert (n / 2 < 0)%Z by (apply Z.div_lt_upper_bound; lia). lia. }
  destruct (init_low_band n k st mode sr ml mb Hn Hk)
    as (self & hz & Hself & Hhz & Hlen & Hlow & Hband).
  assert (Hpts : hz = (λ i, Fin (init_hz n sr ml mb i))
                        <$> seq 0 (S (Z.to_nat (n / 2)))).
  { rewrite (mel_points_real n sr ml mb HN Hhigh) in Hhz. congruence. }
  rewrite Hpts in Hlow, Hband. clear Hpts Hhz Hlen hz.
  exists self. split; [assumption |]. split.
  - rewrite Hlow. apply list_eq. intros i.
    rewrite lookup_take, !list_lookup_fmap.
    destruct (decide (i < Z.to_nat (n / 2))%nat) as [Hi | Hi].
    + rewrite !lookup_seq_lt by lia. reflexivity.
    + rewrite lookup_seq_ge by lia. reflexivity.
  - rewrite Hband. apply list_eq. intros i.
    rewrite list_lookup_fmap.
    destruct (decide (i < Z.to_nat (n / 2))%nat) as [Hi | Hi].
    + rewrite lookup_seq_lt by assumption.
      transitivity
        (Some (fsub (Fin (init_hz n sr ml mb (S i)))
                 (Fin (init_hz n sr ml mb i)))); [| reflexivity].
      apply diff_lookup; rewrite list_lookup_fmap, lookup_seq_lt by lia;
        reflexivity.
    + rewrite lookup_seq_ge by lia.
      apply lookup_ge_None_2. rewrite length_diff, length_fmap, length_seq.
      lia.
Qed.

(** X7: for [n_filters >= 2] and an upper bound
    [high_hz = sample_rate / 2 - (min_low_hz + min_band_hz)] above 30 Hz,
    the initial bands tile the range from 30 Hz to [high_hz]: all initial
    parameters are finite, the first low frequency is 30, every band
    width is positive, every band ends where the next one begins, and
    the last one ends at [high_hz]. *)
Theorem initial_bands_tile (n k st : Z) (mode : string) (sr ml mb : R) :
  (2 ≤ n)%Z → (0 < k)%Z → 30 < sr / 2 - (ml + mb) →
  ∃ self,
    snd (__init__ n k st mode sr ml mb) = Ok self
    ∧ low_hz_ self !! 0%nat = Some (Fin 30)
    ∧ ∀ i : nat, (Z.of_nat i < n / 2)%Z →
        ∃ l b : R,
          low_hz_ self !! i = Some (Fin l)
          ∧ band_hz_ self !! i = Some (Fin b)
          ∧ 30 <= l ∧ 0 < b ∧ l + b <= sr / 2 - (ml + mb)
          ∧ ((Z.of_nat (S i) < n / 2)%Z →
             low_hz_ self !! S i = Some (Fin (l + b)))
          ∧ (Z.of_nat (S i) = (n / 2)%Z → l + b = sr / 2 - (ml + mb)).
Proof.
  intros Hn Hk Hhigh.
  assert (HN : (0 < n / 2)%Z) by (apply Z.div_str_pos; lia).
  destruct (init_real n k st mode sr ml mb HN ltac:(lia) Hhigh)
    as (self & Hself & Hlow & Hband).
  exists self. split; [assumption |]. split.
  - rewrite Hlow, list_lookup_fmap, lookup_seq_lt by lia. simpl.
    rewrite init_hz_first by assumption. reflexivity.
  - intros i Hi.
    exists (init_hz n sr ml mb i),
      (init_hz n sr ml mb (S i) - init_hz n sr ml mb i).
    pose proof (init_hz_increasing n sr ml mb HN Hhigh i) as Hinc.
    pose proof (init_hz_bounds n sr ml mb HN Hhigh i ltac:(lia)) as [Hlo _].
    pose proof (init_hz_bounds n sr ml mb HN Hhigh (S i) ltac:(lia))
      as [_ Hhi].
    split; [rewrite Hlow, list_lookup_fmap, lookup_seq_lt by lia;
            reflexivity |].
    split; [rewrite Hband, list_lookup_fmap, lookup_seq_lt by lia;
            reflexivity |].
    split; [assumption |]. split; [lra |]. split; [lra |]. split.
    + intros Hnext.
      rewrite Hlow, list_lookup_fmap, lookup_seq_lt by lia. simpl.
      do 2 f_equal. ring.
    + intros Hlast.
      replace (S i) with (Z.to_nat (n / 2)) by lia.
      rewrite init_hz_last by assumption. ring.
Qed.

Lemma initial_bands_tile_witness :
  ∃ self,
    snd (__init__ 4 5 1 "encoder" 16000 50 50) = Ok self
    ∧ low_hz_ self !! 0%nat = Some (Fin 30)
    ∧ ∃ l b : R,
        low_hz_ self !! 1%nat = Some (Fin l)
        ∧ band_hz_ self !! 1%nat = Some (Fin b)
        ∧ 30 <= l ∧ 0 < b ∧ l + b = 16000 / 2 - (50 + 50).
Proof.
  destruct (initial_bands_tile 4 5 1 "encoder" 16000 50 50)
    as (self & Hself & Hfirst & Hall); [lia | lia | lra |].
  exists self. do 2 (split; [assumption |]).
  destruct (Hall 1%nat ltac:(by vm_compute))
    as (l & b & Hl & Hb & Hl30 & Hb0 & _ & _ & Hlast).
  exists l, b. repeat (split; [assumption |]).
  apply Hlast. reflexivity.
Defined.



(** ** The buffers *)

(** The buffers of a constructed instance, for any positive kernel size
    argument: [K] is the stored, odd kernel size. *)
Lemma init_buffers_stored (n k st : Z) (mode : string) (sr ml mb : R)
    (self0 : SincParamFB) :
  (0 < k)%Z → sr ≠ 0 →
  snd (__init__ n k st mode sr ml mb) = Ok self0 →
  let K := kernel_size self0 in
  (0 < K)%Z ∧ (K mod 2 = 1)%Z ∧ cutoff self0 = (K / 2)%Z
  ∧ n_ self0 = (λ j, Fin (spec_n sr K j)) <$> seq 0 (Z.to_nat (K / 2))
  ∧ window_ self0 = (λ j, Fin (spec_w K j)) <$> seq 0 (Z.to_nat (K / 2)).
Proof.
  intros Hk Hsr Hself0.
  destruct (init_fields _ _ _ _ _ _ _ _ Hself0)
    as (_ & HK & _ & _ & _ & Hw & Hn).
  destruct (kernel_size_cutoff _ _ _ _ _ _ _ _ Hself0) as [_ Hcut].
  pose proof (forced_odd k) as Hodd.
  simpl. rewrite HK.
  set (K := if (k mod 2 =? 0)%Z then (k + 1)%Z else k) in *.
  assert (HKpos : (0 < K)%Z) by (subst K; destruct (k mod 2 =? 0)%Z; lia).
  split; [assumption |]. split; [assumption |].
  split; [rewrite Hcut, HK; reflexivity |].
  rewrite Hn, Hw. split; [apply n_real | apply window_real]; assumption.
Qed.

Lemma round32_window_floor : round32 0.08 = 10737418 / 134217728.
Proof.
  rewrite (round32_near 0.08 (-4) 10737418).
  - simpl. lra.
  - rewrite Rabs_pos_eq by lra. simpl. lra.
  - lia.
  - simpl. lra.
Qed.

(** X9: for a positive sample rate both buffers have [cutoff] entries,
    with [kernel_size = 2 * cutoff + 1].  In exact arithmetic every entry
    of [n_] is a finite number at most [- 2 pi / sample_rate], so the
    divisor [n_ / 2] of [make_filters] is never zero, and every sample of
    the half window is a finite number between 0.08 and 1.  The buffer
    [window_] holds these samples in single precision: every stored value
    lies between the single-precision number nearest to 0.08, which is
    [10737418 / 2 ^ 27], just below 0.08, and 1. *)
Theorem buffers_bounds (n k st : Z) (mode : string) (sr ml mb : R) :
  (0 ≤ n / 2 + 1)%Z → (0 < k)%Z → 0 < sr →
  ∃ self,
    snd (__init__ n k st mode sr ml mb) = Ok self
    ∧ (0 ≤ cutoff self)%Z
    ∧ kernel_size self = (2 * cutoff self + 1)%Z
    ∧ length (n_ self) = Z.to_nat (cutoff self)
    ∧ length (window_ self) = Z.to_nat (cutoff self)
    ∧ (∀ (j : nat) (t : float), n_ self !! j = Some t →
         ∃ x : R, t = Fin x ∧ x <= - (2 * PI / sr))
    ∧ (∀ (j : nat) (w : float), window_ self !! j = Some w →
         ∃ x : R, w = Fin x ∧ 0.08 <= x <= 1)
    ∧ length (window32 self) = Z.to_nat (cutoff self)
    ∧ (∀ (j : nat) (w : float), window32 self !! j = Some w →
         ∃ x : R, w = Fin x ∧ 10737418 / 134217728 <= x <= 1)
    ∧ 10737418 / 134217728 < 0.08.
Proof.
  intros Hn Hk Hsr.
  destruct (init_succeeds n k st mode sr ml mb Hn ltac:(lia))
    as [self Hself].
  destruct (init_buffers_stored n k st mode sr ml mb self Hk ltac:(lra)
              Hself) as (HK & Hodd & Hcut & Hbn & Hbw).
  set (K := kernel_size self) in *.
  pose proof (Z.div_mod K 2 ltac:(lia)) as Hdm.
  exists self. split; [assumption |]. rewrite Hcut.
  split; [lia |]. split; [lia |].
  split; [rewrite Hbn, length_fmap, length_seq; reflexivity |].
  split; [rewrite Hbw, length_fmap, length_seq; reflexivity |].
  split; [| split; [| split; [| split]]].
  - intros j t Ht. rewrite Hbn, list_lookup_fmap in Ht.
    destruct (seq 0 (Z.to_nat (K / 2)) !! j) as [j' |] eqn:Hj;
      [| discriminate].
    apply lookup_seq in Hj as [-> Hj]. injection Ht as <-.
    eexists. split; [reflexivity |]. unfold spec_n. simpl.
    assert (Ht : IZR (Z.of_nat j - K / 2) <= -1) by (apply IZR_le; lia).
    pose proof PI_RGT_0 as Hpi.
    assert (Hu : 0 < PI * / sr).
    { apply Rmult_lt_0_compat; [| apply Rinv_0_lt_compat]; assumption. }
    replace (2 * PI * IZR (Z.of_nat j - K / 2) / sr)
      with (2 * (PI * / sr) * IZR (Z.of_nat j - K / 2))
      by (unfold Rdiv; ring).
    replace (- (2 * PI / sr)) with (- (2 * (PI * / sr)))
      by (unfold Rdiv; ring).
    nra.
  - intros j w Hw. rewrite Hbw, list_lookup_fmap in Hw.
    destruct (seq 0 (Z.to_nat (K / 2)) !! j) as [j' |] eqn:Hj;
      [| discriminate].
    injection Hw as <-. eexists. split; [reflexivity |]. unfold spec_w.
    pose proof (COS_bound (2 * PI * IZR (Z.of_nat j') / IZR (K - 1)))
      as [Hc1 Hc2].
    lra.
  - unfold window32. rewrite length_fmap, Hbw, length_fmap, length_seq.
    reflexivity.
  - intros j w Hw. unfold window32 in Hw.
    rewrite Hbw, !list_lookup_fmap in Hw.
    destruct (seq 0 (Z.to_nat (K / 2)) !! j) as [j' |] eqn:Hj;
      [| discriminate].
    injection Hw as <-. eexists. split; [reflexivity |].
    pose proof (COS_bound (2 * PI * IZR (Z.of_nat j') / IZR (K - 1)))
      as [Hc1 Hc2].
    assert (Hw : 0.08 <= spec_w K j' <= 1) by (unfold spec_w; lra).
    destruct Hw as [Hw1 Hw2].
    apply round32_le in Hw1, Hw2.
    rewrite round32_window_floor in Hw1.
    rewrite (round32_Z 1) in Hw2 by done. lra.
  - lra.
Qed.

Lemma buffers_bounds_witness :
  ∃ self,
    snd (__init__ 4 4 1 "encoder" 16000 50 50) = Ok self
    ∧ kernel_size self = (2 * cutoff self + 1)%Z
    ∧ length (n_ self) = Z.to_nat (cutoff self)
    ∧ length (window_ self) = Z.to_nat (cutoff self)
    ∧ (∀ (j : nat) (t : float), n_ self !! j = Some t →
         ∃ x : R, t = Fin x ∧ x <= - (2 * PI / 16000))
    ∧ (∀ (j : nat) (w : float), window_ self !! j = Some w →
         ∃ x : R, w = Fin x ∧ 0.08 <= x <= 1)
    ∧ length (window32 self) = Z.to_nat (cutoff self)
    ∧ (∀ (j : nat) (w : float), window32 self !! j = Some w →
         ∃ x : R, w = Fin x ∧ 10737418 / 134217728 <= x <= 1)
    ∧ 10737418 / 134217728 < 0.08.
Proof.
  destruct (buffers_bounds 4 4 1 "encoder" 16000 50 50)
    as (self & Hself & _ & H); [by vm_compute | lia | lra |].
  exists self. split; assumption.
Defined.

(** ** Finite and non-finite kernels *)

Lemma fdiv_zero_not_finite (x : float) (y : R) :
  y = 0 → ¬ is_finite (fdiv x (Fin y)).
Proof.
  intros ->. destruct x as [x | | |]; simpl.
  - destruct (Req_dec_T 0 0) as [_ | H]; [| lra].
    destruct (Rsgn x); simpl; tauto.
  - destruct (Rlt_dec 0 0); simpl; tauto.
  - destruct (Rlt_dec 0 0); simpl; tauto.
  - tauto.
Qed.

Lemma Forall_finite_fmap (l : list R) : Forall is_finite (Fin <$> l).
Proof. apply Forall_fmap, Forall_forall. intros x _. exact I. Qed.

Lemma kernel_cos_zero_band (self : SincParamFB) (lo hi : R) :
  hi - lo = 0 →
  Forall (λ x, ¬ is_finite x) (kernel_cos self (Fin lo) (Fin hi)).
Proof.
  intros Hband. unfold kernel_cos. apply Forall_fmap, Forall_forall.
  intros x _. simpl. apply fdiv_zero_not_finite. lra.
Qed.

Lemma kernel_sin_zero_band (self : SincParamFB) (lo hi : R) :
  hi - lo = 0 →
  Forall (λ x, ¬ is_finite x) (kernel_sin self (Fin lo) (Fin hi)).
Proof.
  intros Hband. unfold kernel_sin. apply Forall_fmap, Forall_forall.
  intros x _. simpl. apply fdiv_zero_not_finite. lra.
Qed.

(** X10: for a nonzero sample rate and real-valued parameters, the two
    kernels of a filter consist of finite numbers only when the effective
    band of the filter is nonzero, and have no finite sample at all when
    it is zero: every sample is then an infinity or a NaN. *)
Theorem kernels_finite_iff (n k st : Z) (mode : string) (sr ml mb : R) :
  (0 ≤ n)%Z → (0 < k)%Z → sr ≠ 0 →
  ∃ self0,
    snd (__init__ n k st mode sr ml mb) = Ok self0
    ∧ ∀ ls bs : list R,
        length ls = Z.to_nat (n / 2) → length bs = Z.to_nat (n / 2) →
        ∃ bank,
          filters (update self0 (Fin <$> ls) (Fin <$> bs)) = Ok bank
          ∧ ∀ (f : nat) (l b : R), ls !! f = Some l → bs !! f = Some b →
              let low := ml + Rabs l in
              let high := Rmin (Rmax (low + mb + Rabs b) ml) (sr / 2) in
              ∃ cos_kernel sin_kernel : list float,
                bank !! f = Some [cos_kernel]
                ∧ bank !! (Z.to_nat (n / 2) + f)%nat = Some [sin_kernel]
                ∧ (high - low ≠ 0 →
                   Forall is_finite cos_kernel
                   ∧ Forall is_finite sin_kernel)
                ∧ (high - low = 0 →
                   Forall (λ x, ¬ is_finite x) cos_kernel
                   ∧ Forall (λ x, ¬ is_finite x) sin_kernel).
Proof.
  intros Hn Hk Hsr.
  assert (Hn' : (0 ≤ n / 2)%Z) by (apply Z.div_pos; lia).
  destruct (init_succeeds n k st mode sr ml mb) as [self0 Hself0];
    [lia | lia |].
  exists self0. split; [assumption |]. intros ls bs Hls Hbs.
  destruct (generated_bank _ _ _ _ _ _ _ _ ls bs Hn Hk Hself0 Hls Hbs)
    as (bank & Hbank & _ & Hrows).
  exists bank. split; [assumption |].
  intros f l b Hl Hb low high.
  destruct (Hrows f l b Hl Hb) as [Hcos Hsin].
  destruct (init_buffers_stored n k st mode sr ml mb self0 Hk Hsr Hself0)
    as (_ & _ & _ & Hbn & Hbw).
  eexists _, _. split; [exact Hcos |]. split; [exact Hsin |]. split.
  - intros Hband.
    rewrite (kernel_cos_real self0 sr _ Hsr Hbn Hbw) by exact Hband.
    rewrite (kernel_sin_real self0 sr _ Hsr Hbn Hbw) by exact Hband.
    split; apply Forall_finite_fmap.
  - intros Hband.
    split; [apply kernel_cos_zero_band | apply kernel_sin_zero_band];
      exact Hband.
Qed.

Lemma kernels_finite_iff_witness :
  ∃ self0,
    snd (__init__ 4 5 1 "encoder" 16000 50 50) = Ok self0
    ∧ ∃ bank (k0 k1 k2 k3 : list float),
        filters (update self0 [Fin 100; Fin 7950] [Fin 200; Fin 10])
        = Ok bank
        ∧ bank !! 0%nat = Some [k0] ∧ bank !! 1%nat = Some [k1]
        ∧ bank !! 2%nat = Some [k2] ∧ bank !! 3%nat = Some [k3]
        ∧ Forall is_finite k0 ∧ Forall is_finite k2
        ∧ Forall (λ x, ¬ is_finite x) k1
        ∧ Forall (λ x, ¬ is_finite x) k3.
Proof.
  destruct (kernels_finite_iff 4 5 1 "encoder" 16000 50 50)
    as (self0 & Hself0 & Hgen); [lia | lia | lra |].
  exists self0. split; [assumption |].
  destruct (Hgen [100; 7950] [200; 10] eq_refl eq_refl)
    as (bank & Hbank & Hrows).
  destruct (Hrows 0%nat 100 200 eq_refl eq_refl)
    as (k0 & k2 & H0 & H2 & Hfin & _).
  destruct (Hrows 1%nat 7950 10 eq_refl eq_refl)
    as (k1 & k3 & H1 & H3 & _ & Hinf).
  destruct Hfin as [Hf0 Hf2]; [real_cases |].
  destruct Hinf as [Hi1 Hi3]; [real_cases |].
  exists bank, k0, k1, k2, k3. repeat split; assumption.
Defined.

(** ** The center sample *)

(** X11: whatever the kernel size and the sample rate (even a zero one),
    the normalisation by [2 * band] makes the center sample of every
    cos-type kernel exactly 1 and that of every sin-type kernel 0, for
    every filter with real-valued parameters and a nonzero band. *)
Theorem center_samples (n k st : Z) (mode : string) (sr ml mb : R) :
  (0 ≤ n)%Z → (0 < k)%Z →
  ∃ self0,
    snd (__init__ n k st mode sr ml mb) = Ok self0
    ∧ ∀ ls bs : list R,
        length ls = Z.to_nat (n / 2) → length bs = Z.to_nat (n / 2) →
        ∃ bank,
          filters (update self0 (Fin <$> ls) (Fin <$> bs)) = Ok bank
          ∧ ∀ (f : nat) (l b : R), ls !! f = Some l → bs !! f = Some b →
              let low := ml + Rabs l in
              let high := Rmin (Rmax (low + mb + Rabs b) ml) (sr / 2) in
              high - low ≠ 0 →
              ∃ cos_kernel sin_kernel : list float,
                bank !! f = Some [cos_kernel]
                ∧ bank !! (Z.to_nat (n / 2) + f)%nat = Some [sin_kernel]
                ∧ cos_kernel !! Z.to_nat (cutoff self0) = Some (Fin 1)
                ∧ sin_kernel !! Z.to_nat (cutoff self0) = Some (Fin 0).
Proof.
  intros Hn Hk.
  assert (Hn' : (0 ≤ n / 2)%Z) by (apply Z.div_pos; lia).
  destruct (init_succeeds n k st mode sr ml mb) as [self0 Hself0];
    [lia | lia |].
  exists self0. split; [assumption |]. intros ls bs Hls Hbs.
  destruct (generated_bank _ _ _ _ _ _ _ _ ls bs Hn Hk Hself0 Hls Hbs)
    as (bank & Hbank & _ & Hrows).
  exists bank. split; [assumption |].
  intros f l b Hl Hb low high Hband.
  destruct (Hrows f l b Hl Hb) as [Hcos Hsin].
  pose proof (init_well_shaped _ _ _ _ _ _ _ _ Hn Hk Hself0) as Hws0.
  assert (Hcut : Z.to_nat (cutoff self0) = length (n_ self0)).
  { destruct (kernel_size_cutoff _ _ _ _ _ _ _ _ Hself0) as [_ ->].
    rewrite (ws_kernel _ Hws0).
    replace (2 * Z.of_nat (length (n_ self0)) + 1)%Z
      with (1 + Z.of_nat (length (n_ self0)) * 2)%Z by lia.
    rewrite Z.div_add by lia. change (1 / 2)%Z with 0%Z. lia. }
  eexists _, _. split; [exact Hcos |]. split; [exact Hsin |].
  rewrite Hcut, kernel_cos_center, kernel_sin_center by apply Hws0.
  change (fsub (Fin (spec_high sr ml mb l b)) (Fin (spec_low ml l)))
    with (Fin (spec_high sr ml mb l b + - spec_low ml l)).
  assert (Hne : 2 * (spec_high sr ml mb l b + - spec_low ml l) ≠ 0).
  { intros H. apply Hband. unfold high, low, spec_high, spec_low in *. lra. }
  simpl.
  destruct (Req_dec_T (2 * (spec_high sr ml mb l b + - spec_low ml l)) 0)
    as [H | _]; [contradiction |].
  split; do 2 f_equal; field; lra.
Qed.

Lemma center_samples_witness :
  ∃ self0,
    snd (__init__ 4 6 1 "encoder" 0 50 50) = Ok self0
    ∧ ∃ bank (cos_kernel sin_kernel : list float),
        filters (update self0 [Fin 100; Fin (-300)] [Fin 200; Fin 10])
        = Ok bank
        ∧ bank !! 1%nat = Some [cos_kernel]
        ∧ bank !! 3%nat = Some [sin_kernel]
        ∧ cos_kernel !! 3%nat = Some (Fin 1)
        ∧ sin_kernel !! 3%nat = Some (Fin 0).
Proof.
  destruct (center_samples 4 6 1 "encoder" 0 50 50)
    as (self0 & Hself0 & Hgen); [lia | lia |].
  exists self0. split; [assumption |].
  destruct (Hgen [100; -300] [200; 10] eq_refl eq_refl)
    as (bank & Hbank & Hrows).
  destruct (Hrows 1%nat (-300) 10 eq_refl eq_refl)
    as (cos_kernel & sin_kernel & H1 & H2 & H3 & H4); [real_cases |].
  destruct (kernel_size_cutoff _ _ _ _ _ _ _ _ Hself0) as [HK Hcut].
  rewrite HK in Hcut. rewrite Hcut in H3, H4.
  exists bank, cos_kernel, sin_kernel. repeat split; assumption.
Defined.

(** ** Sums of samples *)

Lemma Rsum_cons (x : R) (l : list R) : Rsum (x :: l) = x + Rsum l.
Proof. reflexivity. Qed.

Lemma Rsum_app (l1 l2 : list R) : Rsum (l1 ++ l2) = Rsum l1 + Rsum l2.
Proof.
  induction l1 as [| x l1 IH]; [unfold Rsum; simpl; ring |].
  rewrite <- app_comm_cons, !Rsum_cons, IH. ring.
Qed.

Lemma Rsum_reverse (l : list R) : Rsum (reverse l) = Rsum l.
Proof.
  induction l as [| x l IH]; [reflexivity |].
  rewrite reverse_cons, Rsum_app, IH, !Rsum_cons. unfold Rsum. simpl. ring.
Qed.

Lemma Rsum_opp (l : list R) : Rsum (Ropp <$> l) = - Rsum l.
Proof.
  induction l as [| x l IH]; [unfold Rsum; simpl; ring |].
  rewrite fmap_cons, !Rsum_cons, IH. ring.
Qed.

Lemma Rsum_div (l : list R) (c : R) :
  Rsum ((λ x, x / c) <$> l) = Rsum l / c.
Proof.
  induction l as [| x l IH]; [unfold Rsum, Rdiv; simpl; ring |].
  rewrite fmap_cons, !Rsum_cons, IH. unfold Rdiv. ring.
Qed.

Lemma spec_kernel_sin_sum (sr : R) (K : Z) (lo hi : R) :
  Rsum (spec_kernel_sin sr K lo hi) = 0.
Proof.
  unfold spec_kernel_sin.
  rewrite Rsum_div, !Rsum_app, Rsum_opp, Rsum_reverse, Rsum_cons.
  unfold Rsum at 2. simpl. unfold Rdiv. ring.
Qed.

(** X12: a sin-type kernel has no constant component: for a nonzero
    sample rate and a filter with real-valued parameters and a nonzero
    band, its samples are finite and add up to zero (the right half
    cancels the left half and the center sample is 0). *)
Theorem sin_kernel_zero_sum (n k st : Z) (mode : string) (sr ml mb : R) :
  (0 ≤ n)%Z → (0 < k)%Z → sr ≠ 0 →
  ∃ self0,
    snd (__init__ n k st mode sr ml mb) = Ok self0
    ∧ ∀ ls bs : list R,
        length ls = Z.to_nat (n / 2) → length bs = Z.to_nat (n / 2) →
        ∃ bank,
          filters (update self0 (Fin <$> ls) (Fin <$> bs)) = Ok bank
          ∧ ∀ (f : nat) (l b : R), ls !! f = Some l → bs !! f = Some b →
              let low := ml + Rabs l in
              let high := Rmin (Rmax (low + mb + Rabs b) ml) (sr / 2) in
              high - low ≠ 0 →
              ∃ samples : list R,
                bank !! (Z.to_nat (n / 2) + f)%nat = Some [Fin <$> samples]
                ∧ Z.of_nat (length samples) = kernel_size self0
                ∧ Rsum samples = 0.
Proof.
  intros Hn Hk Hsr.
  assert (Hn' : (0 ≤ n / 2)%Z) by (apply Z.div_pos; lia).
  destruct (init_succeeds n k st mode sr ml mb) as [self0 Hself0];
    [lia | lia |].
  exists self0. split; [assumption |]. intros ls bs Hls Hbs.
  destruct (generated_bank _ _ _ _ _ _ _ _ ls bs Hn Hk Hself0 Hls Hbs)
    as (bank & Hbank & _ & Hrows).
  exists bank. split; [assumption |].
  intros f l b Hl Hb low high Hband.
  destruct (Hrows f l b Hl Hb) as [_ Hsin].
  destruct (init_buffers_stored n k st mode sr ml mb self0 Hk Hsr Hself0)
    as (HK & Hodd & _ & Hbn & Hbw).
  rewrite (kernel_sin_real self0 sr _ Hsr Hbn Hbw) in Hsin by exact Hband.
  eexists. split; [exact Hsin |]. split; [| apply spec_kernel_sin_sum].
  unfold spec_kernel_sin.
  rewrite length_fmap, !length_app, length_fmap, length_reverse,
    length_spec_left_sin.
  pose proof (Z.div_mod (kernel_size self0) 2 ltac:(lia)) as Hdm.
  simpl. lia.
Qed.

Lemma sin_kernel_zero_sum_witness :
  ∃ self0,
    snd (__init__ 4 5 1 "encoder" 16000 50 50) = Ok self0
    ∧ ∃ bank (samples : list R),
        filters (update self0 [Fin 100; Fin (-300)] [Fin 200; Fin 10])
        = Ok bank
        ∧ bank !! 3%nat = Some [Fin <$> samples]
        ∧ Rsum samples = 0.
Proof.
  destruct (sin_kernel_zero_sum 4 5 1 "encoder" 16000 50 50)
    as (self0 & Hself0 & Hgen); [lia | lia | lra |].
  exists self0. split; [assumption |].
  destruct (Hgen [100; -300] [200; 10] eq_refl eq_refl)
    as (bank & Hbank & Hrows).
  destruct (Hrows 1%nat (-300) 10 eq_refl eq_refl)
    as (samples & H1 & _ & H2); [real_cases |].
  exists bank, samples. repeat split; assumption.
Defined.

(** ** Exchanging the two band edges *)

Lemma spec_left_cos_swap (sr : R) (K : Z) (lo hi : R) :
  spec_left_cos sr K hi lo = Ropp <$> spec_left_cos sr K lo hi.
Proof.
  unfold spec_left_cos. rewrite <- list_fmap_compose.
  apply list_fmap_ext. intros i j _. simpl. unfold Rdiv. ring.
Qed.

Lemma spec_left_sin_swap (sr : R) (K : Z) (lo hi : R) :
  spec_left_sin sr K hi lo = Ropp <$> spec_left_sin sr K lo hi.
Proof.
  unfold spec_left_sin. rewrite <- list_fmap_compose.
  apply list_fmap_ext. intros i j _. simpl. unfold Rdiv. ring.
Qed.

Lemma spec_kernel_cos_swap (sr : R) (K : Z) (lo hi : R) :
  hi - lo ≠ 0 → spec_kernel_cos sr K hi lo = spec_kernel_cos sr K lo hi.
Proof.
  intros Hband. unfold spec_kernel_cos. rewrite spec_left_cos_swap.
  rewrite <- fmap_reverse.
  replace [2 * (lo - hi)] with (Ropp <$> [2 * (hi - lo)])
    by (simpl; f_equal; ring).
  rewrite <- !fmap_app, <- list_fmap_compose.
  apply list_fmap_ext. intros i x _. simpl. field. lra.
Qed.

Lemma spec_kernel_sin_swap (sr : R) (K : Z) (lo hi : R) :
  hi - lo ≠ 0 → spec_kernel_sin sr K hi lo = spec_kernel_sin sr K lo hi.
Proof.
  intros Hband. unfold spec_kernel_sin. rewrite spec_left_sin_swap.
  rewrite <- fmap_reverse.
  replace [0] with (Ropp <$> [0]) at 1 by (simpl; f_equal; ring).
  rewrite <- !fmap_app, <- list_fmap_compose.
  apply list_fmap_ext. intros i x _. simpl. field. lra.
Qed.

(** X13: [make_filters] does not tell the lower band edge from the upper
    one: on a constructed instance with a nonzero sample rate, for
    finite edges that differ in every filter, exchanging the arguments
    [low] and [high] gives the same kernels, of both types.  A negative
    band, which the clamp of [filters] can produce, thus yields the
    kernel of the band of opposite sign. *)
Theorem make_filters_swap (n k st : Z) (mode : string) (sr ml mb : R) :
  (0 ≤ n)%Z → (0 < k)%Z → sr ≠ 0 →
  ∃ self,
    snd (__init__ n k st mode sr ml mb) = Ok self
    ∧ ∀ los his : list R,
        length los = Z.to_nat (n / 2) → length his = Z.to_nat (n / 2) →
        (∀ (i : nat) (lo hi : R),
           los !! i = Some lo → his !! i = Some hi → hi ≠ lo) →
        (∃ kernels,
           make_filters self (Fin <$> los) (Fin <$> his) "cos" = Ok kernels
           ∧ make_filters self (Fin <$> his) (Fin <$> los) "cos"
             = Ok kernels)
        ∧ (∃ kernels,
             make_filters self (Fin <$> los) (Fin <$> his) "sin" = Ok kernels
             ∧ make_filters self (Fin <$> his) (Fin <$> los) "sin"
               = Ok kernels).
Proof.
  intros Hn Hk Hsr.
  assert (Hn' : (0 ≤ n / 2)%Z) by (apply Z.div_pos; lia).
  destruct (init_succeeds n k st mode sr ml mb) as [self Hself];
    [lia | lia |].
  exists self. split; [assumption |]. intros los his Hlos Hhis Hdiff.
  pose proof (init_well_shaped _ _ _ _ _ _ _ _ Hn Hk Hself) as Hws.
  destruct (init_fields _ _ _ _ _ _ _ _ Hself) as (Hnf & _).
  destruct (init_buffers_stored n k st mode sr ml mb self Hk Hsr Hself)
    as (_ & _ & _ & Hbn & Hbw).
  assert (Hl1 : length (Fin <$> los) = Z.to_nat (n_filters self / 2))
    by (rewrite length_fmap, Hnf; assumption).
  assert (Hl2 : length (Fin <$> his) = Z.to_nat (n_filters self / 2))
    by (rewrite length_fmap, Hnf; assumption).
  rewrite !(make_filters_cos self _ _ Hws), !(make_filters_sin self _ _ Hws)
    by assumption.
  split; eexists; (split; [reflexivity |]); do 2 f_equal;
    apply list_eq; intros i; rewrite !lookup_zip_with, !list_lookup_fmap;
    destruct (los !! i) as [lo |] eqn:Hlo;
    destruct (his !! i) as [hi |] eqn:Hhi; simpl; try reflexivity;
    pose proof (Hdiff i lo hi Hlo Hhi) as Hne; f_equal.
  - rewrite !(kernel_cos_real self sr _ Hsr Hbn Hbw) by lra.
    rewrite spec_kernel_cos_swap by lra. reflexivity.
  - rewrite !(kernel_sin_real self sr _ Hsr Hbn Hbw) by lra.
    rewrite spec_kernel_sin_swap by lra. reflexivity.
Qed.

Lemma make_filters_swap_witness :
  ∃ self,
    snd (__init__ 4 5 1 "encoder" 16000 50 50) = Ok self
    ∧ ∃ kernels,
        make_filters self [Fin 150; Fin 9000] [Fin 400; Fin 8000] "cos"
        = Ok kernels
        ∧ make_filters self [Fin 400; Fin 8000] [Fin 150; Fin 9000] "cos"
          = Ok kernels.
Proof.
  destruct (make_filters_swap 4 5 1 "encoder" 16000 50 50)
    as (self & Hself & Hswap); [lia | lia | lra |].
  exists self. split; [assumption |].
  destruct (Hswap [150; 9000] [400; 8000] eq_refl eq_refl) as [Hcos _];
    [| exact Hcos].
  intros [| [| i]] lo hi Hlo Hhi; simpl in Hlo, Hhi;
    try discriminate; injection Hlo as <-; injection Hhi as <-; lra.
Defined.

(** ** The effective band *)

(** X14: in exact arithmetic, for real-valued parameters and a
    non-negative [min_band_hz], the effective band of a filter is the
    smaller of [min_band_hz + |band_hz|] and [sample_rate / 2 - low]: it
    never exceeds [min_band_hz + |band_hz|], and it is at least
    [min_band_hz] whenever the unclamped upper edge
    [low + min_band_hz + |band_hz|] is at most [sample_rate / 2].  This
    is the formula the program evaluates; the rounding of the sums to
    single precision, which can absorb [min_band_hz + |band_hz|]
    altogether, is not part of this statement. *)
Theorem effective_band (self : SincParamFB) (ls bs : list R) (i : nat)
    (l b : R) :
  low_hz_ self = Fin <$> ls → band_hz_ self = Fin <$> bs →
  ls !! i = Some l → bs !! i = Some b →
  0 <= min_band_hz self →
  ∃ low high : R,
    effective_low self !! i = Some (Fin low)
    ∧ effective_high self !! i = Some (Fin high)
    ∧ high - low
      = Rmin (min_band_hz self + Rabs b) (sample_rate self / 2 - low)
    ∧ high - low <= min_band_hz self + Rabs b
    ∧ (low + min_band_hz self + Rabs b <= sample_rate self / 2 →
       high - low = min_band_hz self + Rabs b
       ∧ min_band_hz self <= high - low).
Proof.
  intros Hls Hbs Hl Hb Hmb.
  exists (spec_low (min_low_hz self) l),
    (spec_high (sample_rate self) (min_low_hz self) (min_band_hz self) l b).
  split; [eapply effective_low_lookup; eassumption |].
  split; [eapply effective_high_lookup; eassumption |].
  pose proof (Rabs_pos l) as Hl0. pose proof (Rabs_pos b) as Hb0.
  unfold spec_high, spec_low.
  set (al := Rabs l) in *. set (ab := Rabs b) in *. clearbody al ab.
  set (ml := min_low_hz self) in *. set (mb := min_band_hz self) in *.
  set (sr := sample_rate self) in *. clearbody ml mb sr.
  split; [real_cases |]. split; [real_cases |].
  intros Hfit. split; real_cases.
Qed.

Lemma effective_band_witness :
  ∃ self0,
    snd (__init__ 2 3 1 "encoder" 16000 50 50) = Ok self0
    ∧ ∃ low high : R,
        effective_low (update self0 [Fin 100] [Fin (-200)]) !! 0%nat
        = Some (Fin low)
        ∧ effective_high (update self0 [Fin 100] [Fin (-200)]) !! 0%nat
          = Some (Fin high)
        ∧ high - low = 50 + Rabs (-200)
        ∧ 50 <= high - low.
Proof.
  destruct (init_succeeds 2 3 1 "encoder" 16000 50 50) as [self0 Hself0];
    [by vm_compute | by vm_compute |].
  exists self0. split; [assumption |].
  destruct (init_fields _ _ _ _ _ _ _ _ Hself0)
    as (_ & _ & Hsr & Hml & Hmb & _).
  destruct (effective_band (update self0 [Fin 100] [Fin (-200)])
              [100] [-200] 0%nat 100 (-200) eq_refl eq_refl eq_refl eq_refl)
    as (low & high & H1 & H2 & _ & _ & H5).
  { simpl. rewrite Hmb. lra. }
  simpl in H5. rewrite Hsr, Hmb in H5.
  assert (Hlow : low = 50 + Rabs 100).
  { unfold effective_low in H1. simpl in H1. rewrite Hml in H1.
    congruence. }
  destruct H5 as [H5 H6]; [subst low; real_cases |].
  exists low, high. repeat split; assumption.
Defined.

(** ** The bank of a fresh instance *)



